(** * HelioRoute: the sun-side engine of [App.tsx]

    A shallow embedding of the computational core of [handleSubmit]
    (route segmentation, sunrise/sunset detection, side classification
    and seat recommendation) together with the properties the project's
    specification states about it.

    Conventions of the embedding.
    - A JavaScript number that holds a finite value is an exact rational
      ([Q]); rounding of binary64 arithmetic is not modelled, and the
      type has no NaN and no infinity.  Comparisons are the boolean
      comparisons of [Q].
    - A [Date] is its time value, a whole number of milliseconds since
      the epoch ([Z]).  [new Date(x)] keeps the integral part of [x]
      (ECMAScript TimeClip); an Invalid Date is [None].
    - An array access outside the array is [undefined]; dereferencing it
      is a TypeError in the browser, and [None] here.

    The embedding follows the newer copy of the component, where an
    event carries the azimuth and a label and the drawn route is split
    at the antimeridian; the copy under [sun-flight/src] has the same
    event and classification loops without those two additions.  The
    summary text (percentages printed with [toFixed]) is left out. *)

From Stdlib Require Import QArith ZArith String Bool List Lia Lqa.
From Stdlib Require Import Qround Qabs Qminmax.
Import ListNotations.

Local Open Scope Q_scope.

(** ** JavaScript numbers *)

Module JsNum.

Definition ltb (x y : Q) : bool := negb (Qle_bool y x).
Definition leb (x y : Q) : bool := Qle_bool x y.
Definition gtb (x y : Q) : bool := ltb y x.
Definition geb (x y : Q) : bool := leb y x.

(** Integral part, rounding toward zero. *)
Definition truncate (x : Q) : Z := Z.quot (Qnum x) (Zpos (Qden x)).

(** The [%] operator on finite numbers with a non-zero divisor: the
    result has the sign of the dividend. *)
Definition rem (x m : Q) : Q := x - m * inject_Z (truncate (x / m)).

(** [new Date(x).getTime()] for a finite [x] inside the Date range. *)
Definition newDate (x : Q) : Z := truncate x.

(** [Math.abs]. *)
Definition abs (x : Q) : Q := Qabs x.

End JsNum.

Infix "<?" := JsNum.ltb (at level 70, no associativity) : Q_scope.
Infix "<=?" := JsNum.leb (at level 70, no associativity) : Q_scope.
Infix ">?" := JsNum.gtb (at level 70, no associativity) : Q_scope.
Infix ">=?" := JsNum.geb (at level 70, no associativity) : Q_scope.


(** ** Option as the error monad *)

Definition bind {A B : Type} (o : option A) (k : A -> option B) : option B :=
  match o with
  | Some a => k a
  | None => None
  end.

Notation "x <- e ;; k" := (bind e (fun x => k))
  (at level 61, e at next level, right associativity).

(** [a[i]] for an integral index: [None] stands for [undefined]. *)
Definition aref {A : Type} (a : list A) (i : Z) : option A :=
  if (i <? 0)%Z then None else nth_error a (Z.to_nat i).

(** ** Data *)

(** An element of the array returned by [interpolateSunAlongRoute]. *)
Record SunPoint : Type := mkSunPoint {
  lat : Q;
  lon : Q;
  time : Z;
  altitude : Q;
  azimuth : Q
}.

(** The object returned by [SunCalc.getTimes], restricted to the two
    fields the code reads. *)
Record SunTimes : Type := mkSunTimes {
  sunrise : option Z;
  sunset : option Z
}.

Inductive EventType : Type := Sunrise | Sunset.

(** An element of [events]. *)
Record SunEvent : Type := mkSunEvent {
  ev_type : EventType;
  ev_time : Z;
  ev_lat : Q;
  ev_lon : Q;
  ev_azimuth : Q;
  ev_position : string
}.

(** The counters of the classification loop. *)
Record Tally : Type := mkTally {
  leftCount : nat;
  rightCount : nat;
  aheadCount : nat;
  behindCount : nat;
  sunVisible : bool;
  sunIntervals : nat
}.

Definition tally0 : Tally := mkTally 0 0 0 0 false 0.

(** The four outcomes of the quadrant rule in the specification. *)
Inductive Quadrant : Type := Right | Behind | Left | Ahead.

(** The quadrant rule as the specification words it: 90 degree buckets,
    closed on their upper edge. *)
Definition InQuadrant (r : Q) (q : Quadrant) : Prop :=
  match q with
  | Right => 45 < r /\ r <= 135
  | Behind => 135 < r /\ r <= 225
  | Left => 225 < r /\ r <= 315
  | Ahead => (315 < r /\ r < 360) \/ (0 <= r /\ r <= 45)
  end.

Definition quadrantLabel (q : Quadrant) : string :=
  match q with
  | Right => "Right"
  | Behind => "Behind"
  | Left => "Left"
  | Ahead => "Ahead"
  end%string.

(** One more interval in bucket [q]. *)
Definition bump (q : Quadrant) (t : Tally) : Tally :=
  match q with
  | Right => mkTally (leftCount t) (S (rightCount t)) (aheadCount t)
               (behindCount t) true (S (sunIntervals t))
  | Behind => mkTally (leftCount t) (rightCount t) (aheadCount t)
                (S (behindCount t)) true (S (sunIntervals t))
  | Left => mkTally (S (leftCount t)) (rightCount t) (aheadCount t)
              (behindCount t) true (S (sunIntervals t))
  | Ahead => mkTally (leftCount t) (rightCount t) (S (aheadCount t))
               (behindCount t) true (S (sunIntervals t))
  end.

Definition neitherSeat : string :=
  "Neither (Sun not visible during flight)"%string.

(** ** The code of [handleSubmit] *)

Section HandleSubmit.

(** [getInitialBearing(lat1, lon1, lat2, lon2)] of [sunUtils]. *)
Variable getInitialBearing : Q -> Q -> Q -> Q -> Q.

(** [SunCalc.getTimes(date, lat, lng)]. *)
Variable getTimes : Z -> Q -> Q -> SunTimes.

(** [(azimuth - heading + 360) % 360]. *)
Definition relAngleOf (az heading : Q) : Q :=
  JsNum.rem (az - heading + 360) 360.

(** *** Sunrise and sunset detection *)

(** The chain that fills [position] in the event loop. *)
Definition relPosition (relAngle : Q) : string :=
  if (relAngle >? 45) && (relAngle <=? 135) then "Right"%string
  else if (relAngle >? 225) && (relAngle <=? 315) then "Left"%string
  else if (relAngle >? 315) || (relAngle <=? 45) then "Ahead"%string
  else if (relAngle >? 135) && (relAngle <=? 225) then "Behind"%string
  else EmptyString.

(** [heading] at iteration [i]: toward the next sample when there is
    one, else from the previous sample, else 0. *)
Definition headingAt (sunPoints : list SunPoint) (i : nat) (p : SunPoint)
    : option Q :=
  if (Z.of_nat i <? Z.of_nat (length sunPoints) - 1)%Z then
    p2 <- aref sunPoints (Z.of_nat i + 1) ;;
    Some (getInitialBearing (lat p) (lon p) (lat p2) (lon p2))
  else if (Z.of_nat i >? 0)%Z then
    p1 <- aref sunPoints (Z.of_nat i - 1) ;;
    Some (getInitialBearing (lat p1) (lon p1) (lat p) (lon p))
  else Some 0.

(** [new Date(t0 + frac * (t1 - t0))] on time values. *)
Definition interpolateTime (t0 t1 : Z) (frac : Q) : Z :=
  JsNum.newDate (inject_Z t0 + frac * (inject_Z t1 - inject_Z t0)).

(** [eventTime] after the inner [if]: the ephemeris time when it is a
    valid date inside the bracket, the interpolated one otherwise. *)
Definition resolveTime (eph : option Z) (t0 t1 : Z) (frac : Q) : Z :=
  match eph with
  | Some t =>
      if (t >=? t0)%Z && (t <=? t1)%Z then t
      else interpolateTime t0 t1 frac
  | None => interpolateTime t0 t1 frac
  end.

(** The block guarded by [prevAlt !== null && prevAlt < 0 &&
    p.altitude >= 0]; the result is what it pushes. *)
Definition sunriseBlock (sunPoints : list SunPoint) (i : nat)
    (p : SunPoint) (times : SunTimes) (position : string)
    (prevAlt : option Q) : option (list SunEvent) :=
  match prevAlt with
  | Some a =>
      if (a <? 0) && (altitude p >=? 0) then
        prev <- aref sunPoints (Z.of_nat i - 1) ;;
        let frac := - a / (altitude p - a) in
        let eventTime :=
          resolveTime (sunrise times) (time prev) (time p) frac in
        Some [mkSunEvent Sunrise eventTime (lat p) (lon p) (azimuth p)
                position]
      else Some []
  | None => Some []
  end.

(** The block guarded by [prevAlt !== null && prevAlt >= 0 &&
    p.altitude < 0]. *)
Definition sunsetBlock (sunPoints : list SunPoint) (i : nat)
    (p : SunPoint) (times : SunTimes) (position : string)
    (prevAlt : option Q) : option (list SunEvent) :=
  match prevAlt with
  | Some a =>
      if (a >=? 0) && (altitude p <? 0) then
        prev <- aref sunPoints (Z.of_nat i - 1) ;;
        let frac := a / (a - altitude p) in
        let eventTime :=
          resolveTime (sunset times) (time prev) (time p) frac in
        Some [mkSunEvent Sunset eventTime (lat p) (lon p) (azimuth p)
                position]
      else Some []
  | None => Some []
  end.

(** Everything iteration [i] pushes onto [events], [p] being
    [sunPoints[i]]. *)
Definition emitted (sunPoints : list SunPoint) (i : nat) (p : SunPoint)
    (prevAlt : option Q) : option (list SunEvent) :=
  let times := getTimes (time p) (lat p) (lon p) in
  heading <- headingAt sunPoints i p ;;
  let relAngle := relAngleOf (azimuth p) heading in
  let position := relPosition relAngle in
  rise <- sunriseBlock sunPoints i p times position prevAlt ;;
  set <- sunsetBlock sunPoints i p times position prevAlt ;;
  Some (rise ++ set).

(** Iteration [i] of [for (let i = 0; i < sunPoints.length; i++)]; the
    state is [(events, prevAlt)]. *)
Definition eventStep (sunPoints : list SunPoint)
    (st : option (list SunEvent * option Q)) (i : nat)
    : option (list SunEvent * option Q) :=
  s <- st ;;
  p <- aref sunPoints (Z.of_nat i) ;;
  pushed <- emitted sunPoints i p (snd s) ;;
  Some (fst s ++ pushed, Some (altitude p)).

Definition detectEvents (sunPoints : list SunPoint)
    : option (list SunEvent) :=
  s <- fold_left (eventStep sunPoints) (seq 0 (length sunPoints))
         (Some ([], None)) ;;
  Some (fst s).

(** The events pushed while [sunPoints[i]] is the previous sample and
    [sunPoints[i+1]] the current one. *)
Definition pairEvents (sunPoints : list SunPoint) (i : nat)
    : list SunEvent :=
  match (p <- nth_error sunPoints i ;;
         q <- nth_error sunPoints (S i) ;;
         emitted sunPoints (S i) q (Some (altitude p))) with
  | Some es => es
  | None => []
  end.

(** *** Classification loop *)

(** The four-way [if]/[else if] chain of the classification loop,
    after [sunVisible = true; sunIntervals++]. *)
Definition countQuadrant (relAngle : Q) (t : Tally) : Tally :=
  let t := mkTally (leftCount t) (rightCount t) (aheadCount t)
             (behindCount t) true (S (sunIntervals t)) in
  if (relAngle >? 45) && (relAngle <=? 135) then
    mkTally (leftCount t) (S (rightCount t)) (aheadCount t)
      (behindCount t) (sunVisible t) (sunIntervals t)
  else if (relAngle >? 225) && (relAngle <=? 315) then
    mkTally (S (leftCount t)) (rightCount t) (aheadCount t)
      (behindCount t) (sunVisible t) (sunIntervals t)
  else if (relAngle >? 315) || (relAngle <=? 45) then
    mkTally (leftCount t) (rightCount t) (S (aheadCount t))
      (behindCount t) (sunVisible t) (sunIntervals t)
  else if (relAngle >? 135) && (relAngle <=? 225) then
    mkTally (leftCount t) (rightCount t) (aheadCount t)
      (S (behindCount t)) (sunVisible t) (sunIntervals t)
  else t.

(** The loop body once [p1] and [p2] have been read. *)
Definition tallyPair (t : Tally) (p1 p2 : SunPoint) : Tally :=
  let heading := getInitialBearing (lat p1) (lon p1) (lat p2) (lon p2) in
  let relAngle := relAngleOf (azimuth p1) heading in
  if altitude p1 <? 0 then t else countQuadrant relAngle t.

(** Iteration [i] of [for (let i = 0; i < sunPoints.length - 1; i++)]. *)
Definition classifyStep (sunPoints : list SunPoint) (st : option Tally)
    (i : nat) : option Tally :=
  t <- st ;;
  p1 <- aref sunPoints (Z.of_nat i) ;;
  p2 <- aref sunPoints (Z.of_nat i + 1) ;;
  Some (tallyPair t p1 p2).

Definition classifyLoop (sunPoints : list SunPoint) : option Tally :=
  fold_left (classifyStep sunPoints)
    (seq 0 (length sunPoints - 1)) (Some tally0).

(** [const totalIntervals = sunPoints.length - 1]. *)
Definition totalIntervals (sunPoints : list SunPoint) : Z :=
  (Z.of_nat (length sunPoints) - 1)%Z.

(** The choice of [seat] after the loop. *)
Definition seatOf (t : Tally) : string :=
  if negb (sunVisible t) then neitherSeat
  else if (rightCount t <? leftCount t)%nat then "Left"%string
  else if (leftCount t <? rightCount t)%nat then "Right"%string
  else if (0 <? leftCount t)%nat then "Left"%string else neitherSeat.

(** What the classifier part of [handleSubmit] hands to the view. *)
Record Classification : Type := mkClassification {
  seat : string;
  tally : Tally;
  total : Z
}.

Definition classify (sunPoints : list SunPoint) : option Classification :=
  t <- classifyLoop sunPoints ;;
  Some (mkClassification (seatOf t) t (totalIntervals sunPoints)).

(** *** Route segmentation in [createFlightPath] *)

(** [interpolateGreatCircle(lat1, lon1, lat2, lon2, frac)] of
    [sunUtils]; the result is the pair [(lat, lon)]. *)
Variable interpolateGreatCircle : Q -> Q -> Q -> Q -> Q -> Q * Q.

(** The first loop: [steps + 1] points at fractions [i / steps]. *)
Definition routePoints (lat1 lon1 lat2 lon2 : Q) : list (Q * Q) :=
  let steps := 20%nat in
  map (fun i : nat =>
         let frac := inject_Z (Z.of_nat i) / inject_Z (Z.of_nat steps) in
         interpolateGreatCircle lat1 lon1 lat2 lon2 frac)
      (seq 0 (S steps)).

(** One iteration of the second loop; the state is
    [(segments, currentSegment)]. *)
Definition segmentStep (st : list (list (Q * Q)) * list (Q * Q))
    (point : Q * Q) : list (list (Q * Q)) * list (Q * Q) :=
  let (segments, currentSegment) := st in
  match currentSegment with
  | [] => (segments, currentSegment ++ [point])
  | _ :: _ =>
      let prevPoint := last currentSegment point in
      let lonDiff := JsNum.abs (snd point - snd prevPoint) in
      if lonDiff >? 180 then
        ((if (0 <? length currentSegment)%nat
          then segments ++ [currentSegment] else segments),
         [point])
      else (segments, currentSegment ++ [point])
  end.

(** The second loop and the final push. *)
Definition segmentPoints (points : list (Q * Q)) : list (list (Q * Q)) :=
  let (segments, currentSegment) := fold_left segmentStep points ([], []) in
  if (0 <? length currentSegment)%nat
  then segments ++ [currentSegment] else segments.

Definition createFlightPath (lat1 lon1 lat2 lon2 : Q)
    : list (list (Q * Q)) :=
  segmentPoints (routePoints lat1 lon1 lat2 lon2).

End HandleSubmit.

(** ** The solar sampler

    [interpolateSunAlongRoute] lives in [sunUtils], which is not part of
    the sources at hand; [handleSubmit] only calls it. *)

Module SolarSampler.

Record GeoPoint : Type := mkGeoPoint {
  latitude : Q;
  longitude : Q
}.

(** Instants are milliseconds since the epoch. *)
Record RouteSample : Type := mkRouteSample {
  position : GeoPoint;
  timestamp : Q;
  sunAltitude : Q;
  sunAzimuth : Q
}.

Inductive Error : Type := InvalidInput.

Definition msPerHour : Q := 3600000.

Section Sampler.

(** The geometry and ephemeris capabilities the sampler consumes. *)
Variable greatCirclePoint : GeoPoint -> GeoPoint -> Q -> GeoPoint.
Variable solarState : Q -> GeoPoint -> Q * Q.

(** Modelled from the spec: the step count
    [n = ceil(durationHours*60/intervalMinutes)] of [sampleRoute]
    ([interpolateSunAlongRoute] of the missing [sunUtils]). *)
Definition stepCount (durationHours intervalMinutes : Q) : Z :=
  Qceiling (durationHours * 60 / intervalMinutes).

(** Modelled from the spec: [fraction =
    min(i*intervalMinutes/(durationHours*60), 1)] of [sampleRoute]
    ([sunUtils] is missing). *)
Definition fractionAt (durationHours intervalMinutes : Q) (i : nat) : Q :=
  Qmin (inject_Z (Z.of_nat i) * intervalMinutes / (durationHours * 60)) 1.

(** Modelled from the spec: the sample of step [i] of [sampleRoute]
    ([sunUtils] is missing): position on the great circle at the
    fraction, timestamp [departureUTC + fraction*durationHours]
    hours, solar state from the ephemeris at that time and place. *)
Definition sampleAt (origin destination : GeoPoint) (departureUTC : Z)
    (durationHours intervalMinutes : Q) (i : nat) : RouteSample :=
  let fraction := fractionAt durationHours intervalMinutes i in
  let position := greatCirclePoint origin destination fraction in
  let timestamp :=
    inject_Z departureUTC + fraction * durationHours * msPerHour in
  let state := solarState timestamp position in
  mkRouteSample position timestamp (fst state) (snd state).

(** Modelled from the spec: [sampleRoute] of section 4.2, whose code
    ([interpolateSunAlongRoute] in [sunUtils]) is missing: one
    sample for each [i = 0..n], InvalidInput when the duration or
    the interval is not positive. *)
Definition sampleRoute (origin destination : GeoPoint)
    (departureUTC : Z) (durationHours intervalMinutes : Q)
    : Error + list RouteSample :=
  if (durationHours <=? 0) || (intervalMinutes <=? 0) then
    inl InvalidInput
  else
    let n := Z.to_nat (stepCount durationHours intervalMinutes) in
    inr (map (sampleAt origin destination departureUTC
                durationHours intervalMinutes)
           (seq 0 (S n))).

End Sampler.

End SolarSampler.

(** ** The recommendation policy in the words of the specification *)

Definition policySeat (visibleIntervals leftCount rightCount : nat)
    : string :=
  if (visibleIntervals =? 0)%nat then neitherSeat
  else if (rightCount <? leftCount)%nat then "Left"%string
  else if (leftCount <? rightCount)%nat then "Right"%string
  else if (0 <? leftCount)%nat then "Left"%string
  else neitherSeat.

(** ** Vocabulary of the properties *)

(** Consecutive points whose longitudes differ by more than 180. *)
Definition Jump (a b : Q * Q) : Prop := 180 < Qabs (snd b - snd a).

(** No two neighbours of the polyline are a [Jump]. *)
Fixpoint Smooth (s : list (Q * Q)) : Prop :=
  match s with
  | [] => True
  | a :: rest =>
      match rest with
      | [] => True
      | b :: _ => ~ Jump a b /\ Smooth rest
      end
  end.

(** Each segment ends, and the next one starts, across a [Jump]. *)
Fixpoint Broken (segs : list (list (Q * Q))) : Prop :=
  match segs with
  | [] => True
  | s :: rest =>
      match rest with
      | [] => True
      | s' :: _ =>
          (exists pre a b post,
              s = pre ++ [a] /\ s' = b :: post /\ Jump a b)
          /\ Broken rest
      end
  end.

(** The segments cut [pts] at its jumps and nowhere else. *)
Definition Segmented (pts : list (Q * Q)) (segs : list (list (Q * Q)))
    : Prop :=
  concat segs = pts /\
  Forall (fun s => s <> []) segs /\
  Forall Smooth segs /\
  Broken segs.

(** The consecutive pairs of a sample sequence. *)
Fixpoint adjacent {A : Type} (l : list A) : list (A * A) :=
  match l with
  | [] => []
  | a :: rest =>
      match rest with
      | [] => []
      | b :: _ => (a, b) :: adjacent rest
      end
  end.

(** The interval starts with the sun on or above the horizon. *)
Definition startsVisible (pq : SunPoint * SunPoint) : bool :=
  altitude (fst pq) >=? 0.

(** The heading of the interval from [p1] to [p2]. *)
Definition headingOf (bearing : Q -> Q -> Q -> Q -> Q) (p1 p2 : SunPoint)
    : Q :=
  bearing (lat p1) (lon p1) (lat p2) (lon p2).

(** The heading the event loop uses while [sunPoints[i+1]] is the
    current sample: toward [sunPoints[i+2]] when it exists, from
    [sunPoints[i]] otherwise. *)
Definition pairHeading (bearing : Q -> Q -> Q -> Q -> Q)
    (sunPoints : list SunPoint) (i : nat) (p q : SunPoint) : Q :=
  match nth_error sunPoints (S (S i)) with
  | Some r => headingOf bearing q r
  | None => headingOf bearing p q
  end.

(** The ephemeris time of an event of kind [k] at the sample [q]. *)
Definition ephemerisTime (getTimes : Z -> Q -> Q -> SunTimes)
    (k : EventType) (q : SunPoint) : option Z :=
  match k with
  | Sunrise => sunrise (getTimes (time q) (lat q) (lon q))
  | Sunset => sunset (getTimes (time q) (lat q) (lon q))
  end.

(** The two guarded blocks of the event loop for the previous sample
    [p] and the current sample [q], the label being already computed. *)
Definition crossingEvents (getTimes : Z -> Q -> Q -> SunTimes)
    (p q : SunPoint) (position : string) : list SunEvent :=
  (if (altitude p <? 0) && (altitude q >=? 0) then
     [mkSunEvent Sunrise
        (resolveTime (ephemerisTime getTimes Sunrise q) (time p) (time q)
           (- altitude p / (altitude q - altitude p)))
        (lat q) (lon q) (azimuth q) position]
   else [])
  ++
  (if (altitude p >=? 0) && (altitude q <? 0) then
     [mkSunEvent Sunset
        (resolveTime (ephemerisTime getTimes Sunset q) (time p) (time q)
           (altitude p / (altitude p - altitude q)))
        (lat q) (lon q) (azimuth q) position]
   else []).


(** The interpolation fraction in the words of the specification. *)
Definition specFraction (p q : SunPoint) : Q :=
  Qabs (altitude p) / Qabs (altitude q - altitude p).

(** The classification loop body run over a list of intervals. *)
Definition tallyPairs (bearing : Q -> Q -> Q -> Q -> Q)
    (pairs : list (SunPoint * SunPoint)) (t : Tally) : Tally :=
  fold_left (fun t pq => tallyPair bearing t (fst pq) (snd pq)) pairs t.

(** ** Inputs used in the examples *)

Module Examples.

(** A bearing function for the examples: the great-circle initial
    bearing of a move along a meridian (0 north, 180 south) or along
    the equator (90 east, 270 west); the examples make no other move. *)
Definition cardinalBearing (lat1 lon1 lat2 lon2 : Q) : Q :=
  if Qeq_bool lon1 lon2 then (if lat2 >=? lat1 then 0 else 180)
  else if lon2 >? lon1 then 90 else 270.

(** An ephemeris without sunrise and sunset times (polar day). *)
Definition noTimes (_ : Z) (_ _ : Q) : SunTimes := mkSunTimes None None.

(** An ephemeris whose sunrise falls 4 minutes after the epoch. *)
Definition riseAt4 (_ : Z) (_ _ : Q) : SunTimes :=
  mkSunTimes (Some 240000%Z) None.

(** Two samples ten minutes apart, eastbound on the equator, the sun
    rising from -5 to +3 degrees. *)
Definition dawn : list SunPoint :=
  [ mkSunPoint 0 0 0 (-5) 90; mkSunPoint 0 10 600000 3 90 ].


(** East along the equator, then north: the sun rises in the first
    interval, due east. *)
Definition turn : list SunPoint :=
  [ mkSunPoint 0 0 0 (-5) 90;
    mkSunPoint 0 10 600000 3 90;
    mkSunPoint 10 10 1200000 8 90 ].

(** Northbound with the sun at azimuth 45, then at azimuth 315. *)
Definition edges : list SunPoint :=
  [ mkSunPoint 0 0 0 10 45;
    mkSunPoint 10 0 600000 10 315;
    mkSunPoint 20 0 1200000 10 0 ].

(** A day flight that ends after sunset. *)
Definition dusk : list SunPoint :=
  [ mkSunPoint 0 0 0 10 270;
    mkSunPoint 10 0 600000 4 270;
    mkSunPoint 20 0 1200000 (-2) 270;
    mkSunPoint 30 0 1800000 (-8) 270 ].

(** A polyline that crosses the antimeridian once. *)
Definition pacific : list (Q * Q) :=
  [ (35, 170); (36, 178); (37, -175); (38, -168) ].

(** Stand-ins for the sampler's collaborators: a chord in latitude
    and longitude for the route, and a fixed sun. *)
Definition chordPoint (a b : SolarSampler.GeoPoint) (f : Q)
    : SolarSampler.GeoPoint :=
  SolarSampler.mkGeoPoint
    (SolarSampler.latitude a
     + f * (SolarSampler.latitude b - SolarSampler.latitude a))
    (SolarSampler.longitude a
     + f * (SolarSampler.longitude b - SolarSampler.longitude a)).

Definition fixedSun (_ : Q) (_ : SolarSampler.GeoPoint) : Q * Q :=
  (30, 180).

Definition jfk : SolarSampler.GeoPoint :=
  SolarSampler.mkGeoPoint (4064 # 100) (- (7378 # 100)).

Definition lax : SolarSampler.GeoPoint :=
  SolarSampler.mkGeoPoint (3394 # 100) (- (11841 # 100)).

End Examples.

(** ** The rest of the component *)

(** [Math.floor]. *)
Definition mathFloor (x : Q) : Q := inject_Z (Qfloor x).

(** [Math.PI]: the binary64 number nearest to pi, exactly. *)
Definition mathPI : Q := 884279719003555 # 281474976710656.

(** What [getSubsolarPoint] reads of a [Date]: its UTC getters. *)
Record UTCDate : Type := mkUTCDate {
  getUTCFullYear : Z;
  getUTCMonth : Z;
  getUTCDate : Z;
  getUTCHours : Z;
  getUTCMinutes : Z
}.

Section Subsolar.

(** [Math.sin]. *)
Variable mathSin : Q -> Q.

(** The day number [N] of [getSubsolarPoint]. *)
Definition dayNumber (date : UTCDate) : Q :=
  let day := inject_Z (getUTCDate date) in
  let month := inject_Z (getUTCMonth date) + 1 in
  let year := inject_Z (getUTCFullYear date) in
  let N1 := mathFloor (275 * month / 9) in
  let N2 := mathFloor ((month + 9) / 12) in
  let N3 := 1 + mathFloor ((year - 4 * mathFloor (year / 4) + 2) / 3) in
  N1 - (N2 * N3) + day - 30.

(** [getSubsolarPoint(date)]; the result is the pair [(lat, lon)]. *)
Definition getSubsolarPoint (date : UTCDate) : Q * Q :=
  let rad := mathPI / 180 in
  let N := dayNumber date in
  let decl := (2344 # 100) * mathSin (rad * ((360 / 365) * (N - 81))) in
  let minutes :=
    inject_Z (getUTCHours date) * 60 + inject_Z (getUTCMinutes date) in
  let lon := 180 - (minutes / 4) in
  (decl, lon).

End Subsolar.

Section Terminator.

(** [SunCalc.getPosition(date, lat, lng).declination] when it is a
    finite number; [None] when it is not (absent, NaN, infinite). *)
Variable declinationAt : Z -> Q -> Q -> option Q.

(** The loop of [getTerminatorPolyline] from the longitude [lon] on;
    [fuel] bounds the number of iterations, [None] is an exhausted
    bound. *)
Fixpoint terminatorLoop (fuel : nat) (date : Z) (lon : Z)
    (points : list (Q * Q)) : option (list (Q * Q)) :=
  if (lon <=? 180)%Z then
    match fuel with
    | O => None
    | S fuel' =>
        let points' :=
          match declinationAt date 0 (inject_Z lon) with
          | Some declination =>
              let decl := declination * 180 / mathPI in
              points ++ [(decl, inject_Z lon)]
          | None => points
          end in
        terminatorLoop fuel' date (lon + 2) points'
    end
  else Some points.

(** [getTerminatorPolyline(date)]: the loop runs from -180 to 180 in
    steps of 2, that is 181 times. *)
Definition getTerminatorPolyline (date : Z) : option (list (Q * Q)) :=
  terminatorLoop 181 date (-180) [].

End Terminator.

(** [Array.prototype.findIndex], counting from [i]. *)
Fixpoint findIndexFrom {A : Type} (f : A -> bool) (a : list A) (i : Z) : Z :=
  match a with
  | [] => (-1)%Z
  | x :: rest => if f x then i else findIndexFrom f rest (i + 1)%Z
  end.

Definition findIndex {A : Type} (f : A -> bool) (a : list A) : Z :=
  findIndexFrom f a 0%Z.

(** [Math.abs(p.time.getTime() - mapTime.getTime()) < 5 * 60 * 1000]. *)
Definition nearMapTime (mapTime : Z) (p : SunPoint) : bool :=
  (Z.abs (time p - mapTime) <? 5 * 60 * 1000)%Z.

(** [currentSunPoint] in the body of the component: [Some None] is
    [null], [Some (Some p)] a sample, [None] a TypeError. *)
Definition currentSunPoint (sunPoints : list SunPoint) (mapTime : Z)
    : option (option SunPoint) :=
  if (0 <? length sunPoints)%nat then
    let idx := findIndex (nearMapTime mapTime) sunPoints in
    let idx := if (idx =? -1)%Z then 0%Z else idx in
    p <- aref sunPoints idx ;;
    Some (Some p)
  else Some None.

(** *** Favorite routes *)

Module Favorites.

Record Favorite : Type := mkFavorite {
  source : string;
  dest : string
}.

(** [favorites.some(fav => fav.source === sourceIATA &&
    fav.dest === destIATA)]. *)
Definition isCurrentFavorite (favorites : list Favorite)
    (sourceIATA destIATA : string) : bool :=
  existsb (fun fav =>
             String.eqb (source fav) sourceIATA
             && String.eqb (dest fav) destIATA)
    favorites.

(** The state [removeFavorite(source, dest)] sets. *)
Definition removeFavorite (favorites : list Favorite) (s d : string)
    : list Favorite :=
  filter (fun fav =>
            negb (String.eqb (source fav) s) || negb (String.eqb (dest fav) d))
    favorites.

(** The state after [toggleFavorite()]. *)
Definition toggleFavorite (favorites : list Favorite)
    (sourceIATA destIATA : string) : list Favorite :=
  if isCurrentFavorite favorites sourceIATA destIATA then
    removeFavorite favorites sourceIATA destIATA
  else
    let newFavorite := mkFavorite sourceIATA destIATA in
    if negb (existsb (fun fav =>
                        String.eqb (source fav) (source newFavorite)
                        && String.eqb (dest fav) (dest newFavorite))
               favorites)
    then favorites ++ [newFavorite]
    else favorites.

End Favorites.

(** *** Vocabulary of the further properties *)

(** Every two neighbours of the list are related by [R]. *)
Fixpoint Chain {A : Type} (R : A -> A -> Prop) (l : list A) : Prop :=
  match l with
  | [] => True
  | a :: rest =>
      match rest with
      | [] => True
      | b :: _ => R a b /\ Chain R rest
      end
  end.

(** Sunrises and sunsets take turns. *)
Definition Alternating (evs : list SunEvent) : Prop :=
  Chain (fun e1 e2 => ev_type e1 <> ev_type e2) evs.

(** Event times never go back. *)
Definition Chronological (evs : list SunEvent) : Prop :=
  Chain (fun e1 e2 => (ev_time e1 <= ev_time e2)%Z) evs.

(** Sample times never go back. *)
Definition TimeOrdered (sunPoints : list SunPoint) : Prop :=
  Chain (fun p q => (time p <= time q)%Z) sunPoints.

(** Consecutive samples are at least five minutes apart. *)
Definition FiveMinutesApart (sunPoints : list SunPoint) : Prop :=
  Chain (fun p q => (time p + 300000 <= time q)%Z) sunPoints.

(** The test of the segmentation loop on a pair of neighbours. *)
Definition isJump (ab : (Q * Q) * (Q * Q)) : bool :=
  JsNum.abs (snd (snd ab) - snd (fst ab)) >? 180.

(** Days of the year before the first of the month [month0] (counted
    from 0), in a year of 365 or 366 days. *)
Definition daysBeforeMonth (leap : bool) (month0 : Z) : Z :=
  (nth (Z.to_nat month0)
     [0; 31; 59; 90; 120; 151; 181; 212; 243; 273; 304; 334] 0
   + (if leap && (2 <=? month0) then 1 else 0))%Z.



(** ** Further inputs used in the examples *)

Module MoreExamples.

(** A flight through a short night: the sun sets, then rises. *)
Definition night : list SunPoint :=
  [ mkSunPoint 0 0 0 5 270;
    mkSunPoint 10 0 600000 (-1) 280;
    mkSunPoint 20 0 1200000 (-3) 0;
    mkSunPoint 30 0 1800000 2 80 ].

Definition favorites : list Favorites.Favorite :=
  [ Favorites.mkFavorite "DEL" "BLR"; Favorites.mkFavorite "JFK" "LAX" ].

(** 2024-03-01 12:30 UTC. *)
Definition march1 : UTCDate := mkUTCDate 2024 2 1 12 30.

(** A bounded stand-in for [Math.sin]. *)
Definition flatSin (x : Q) : Q := if x <? 0 then -1 else 1.

(** An ephemeris with a declination east of Greenwich only. *)
Definition eastOnly (_ : Z) (_ lon : Q) : option Q :=
  if lon >? 0 then Some (1 # 10) else None.

End MoreExamples.

(** * Properties *)

(** ** Comparisons *)

Lemma ltb_lt (x y : Q) : (x <? y) = true <-> x < y.
Proof.
  unfold JsNum.ltb. rewrite negb_true_iff.
  split; intro H.
  - apply Qnot_le_lt. intro L. apply Qle_bool_iff in L. congruence.
  - destruct (Qle_bool y x) eqn:E; [|reflexivity].
    apply Qle_bool_iff in E. exfalso. exact (Qlt_not_le _ _ H E).
Qed.

Lemma ltb_ge (x y : Q) : (x <? y) = false <-> y <= x.
Proof.
  unfold JsNum.ltb. rewrite negb_false_iff. apply Qle_bool_iff.
Qed.

Lemma leb_le (x y : Q) : (x <=? y) = true <-> x <= y.
Proof. apply Qle_bool_iff. Qed.

Lemma leb_gt (x y : Q) : (x <=? y) = false <-> y < x.
Proof.
  unfold JsNum.leb. split; intro H.
  - apply Qnot_le_lt. intro L. apply Qle_bool_iff in L. congruence.
  - destruct (Qle_bool x y) eqn:E; [|reflexivity].
    apply Qle_bool_iff in E. exfalso. exact (Qlt_not_le _ _ H E).
Qed.

(** Decide every comparison in sight and hand the facts to [lra]. *)
Ltac qcases :=
  unfold JsNum.gtb, JsNum.geb in *;
  repeat match goal with
    | |- context [JsNum.ltb ?a ?b] =>
        let E := fresh "E" in
        destruct (JsNum.ltb a b) eqn:E;
        [apply ltb_lt in E | apply ltb_ge in E]
    | |- context [JsNum.leb ?a ?b] =>
        let E := fresh "E" in
        destruct (JsNum.leb a b) eqn:E;
        [apply leb_le in E | apply leb_gt in E]
    end;
  cbn [andb orb negb].

(** ** The remainder *)

Lemma truncate_nonneg (x : Q) : 0 <= x -> JsNum.truncate x = Qfloor x.
Proof.
  destruct x as [n d]. unfold Qle, JsNum.truncate, Qfloor. cbn.
  intro H. apply Z.quot_div_nonneg; lia.
Qed.



(** ** Array access *)

Lemma aref_nat {A : Type} (a : list A) (i : nat) :
  aref a (Z.of_nat i) = nth_error a i.
Proof.
  unfold aref. destruct (Z.ltb_spec (Z.of_nat i) 0); [lia|].
  now rewrite Nat2Z.id.
Qed.

Lemma aref_succ {A : Type} (a : list A) (i : nat) :
  aref a (Z.of_nat i + 1) = nth_error a (S i).
Proof.
  replace (Z.of_nat i + 1)%Z with (Z.of_nat (S i)) by lia. apply aref_nat.
Qed.

Lemma aref_pred {A : Type} (a : list A) (i : nat) :
  aref a (Z.of_nat (S i) - 1) = nth_error a i.
Proof.
  replace (Z.of_nat (S i) - 1)%Z with (Z.of_nat i) by lia. apply aref_nat.
Qed.

Lemma nth_error_middle {A : Type} (pre : list A) (a : A) (post : list A) :
  nth_error (pre ++ a :: post) (length pre) = Some a.
Proof.
  induction pre as [|x pre IH]; [reflexivity | exact IH].
Qed.

Lemma adjacent_length {A : Type} (l : list A) :
  length (adjacent l) = (length l - 1)%nat.
Proof.
  induction l as [|a [|b r] IH]; [reflexivity | reflexivity |].
  change (adjacent (a :: b :: r)) with ((a, b) :: adjacent (b :: r)).
  cbn [length] in *. lia.
Qed.

(** ** The classification loop *)

Section Classifier.

Variable bearing : Q -> Q -> Q -> Q -> Q.

(** The index loop visits the consecutive pairs in order. *)
Lemma classify_fold (l pre : list SunPoint) (t : Tally) :
  fold_left (classifyStep bearing (pre ++ l))
    (seq (length pre) (length l - 1)) (Some t)
  = Some (tallyPairs bearing (adjacent l) t).
Proof.
  revert pre t.
  induction l as [|a [|b r] IH]; intros pre t; [reflexivity | reflexivity |].
  change (adjacent (a :: b :: r)) with ((a, b) :: adjacent (b :: r)).
  replace (length (a :: b :: r) - 1)%nat with (S (length (b :: r) - 1))
    by (cbn [length]; lia).
  cbn [seq fold_left tallyPairs].
  assert (Hstep : classifyStep bearing (pre ++ a :: b :: r) (Some t)
                    (length pre) = Some (tallyPair bearing t a b)).
  { unfold classifyStep. cbn [bind].
    rewrite aref_nat, aref_succ, nth_error_middle. cbn [bind].
    replace (pre ++ a :: b :: r) with ((pre ++ [a]) ++ b :: r)
      by (now rewrite <- app_assoc).
    replace (S (length pre)) with (length (pre ++ [a]))
      by (rewrite length_app; cbn; lia).
    now rewrite nth_error_middle. }
  rewrite Hstep.
  specialize (IH (pre ++ [a]) (tallyPair bearing t a b)).
  rewrite <- app_assoc in IH. cbn [app] in IH.
  rewrite length_app in IH. cbn [length] in IH.
  replace (length pre + 1)%nat with (S (length pre)) in IH by lia.
  exact IH.
Qed.

Lemma classifyLoop_pairs (l : list SunPoint) :
  classifyLoop bearing l = Some (tallyPairs bearing (adjacent l) tally0).
Proof. exact (classify_fold l [] tally0). Qed.

Lemma classify_total (l : list SunPoint) :
  classify bearing l
  = Some (mkClassification
            (seatOf (tallyPairs bearing (adjacent l) tally0))
            (tallyPairs bearing (adjacent l) tally0)
            (totalIntervals l)).
Proof. unfold classify. now rewrite classifyLoop_pairs. Qed.

(** An invariant of the loop body is an invariant of the loop. *)
Lemma tallyPairs_inv (P : Tally -> Prop) :
  (forall t p q, P t -> P (tallyPair bearing t p q)) ->
  forall pairs t, P t -> P (tallyPairs bearing pairs t).
Proof.
  intros Hstep pairs.
  induction pairs as [|pq pairs IH]; intros t Ht; [exact Ht|].
  apply IH, Hstep, Ht.
Qed.

(** The chain agrees with the rule of the specification. *)
Lemma countQuadrant_rule (r : Q) (q : Quadrant) (t : Tally) :
  InQuadrant r q -> countQuadrant r t = bump q t.
Proof.
  unfold countQuadrant. destruct q; cbn [InQuadrant bump];
    intro H; qcases; try reflexivity; lra.
Qed.

(** The chain always takes one of its four branches. *)
Lemma countQuadrant_some (r : Q) (t : Tally) :
  exists q, countQuadrant r t = bump q t.
Proof.
  unfold countQuadrant. qcases;
    solve [ now exists Right | now exists Left | now exists Ahead
          | now exists Behind | lra ].
Qed.

Lemma tallyPair_hidden (t : Tally) (p q : SunPoint) :
  startsVisible (p, q) = false -> tallyPair bearing t p q = t.
Proof.
  unfold startsVisible, tallyPair. cbn [fst]. intro H.
  unfold JsNum.geb in H. apply leb_gt in H.
  apply ltb_lt in H. now rewrite H.
Qed.

Lemma tallyPair_visible (t : Tally) (p q : SunPoint) :
  startsVisible (p, q) = true ->
  tallyPair bearing t p q
  = countQuadrant
      (relAngleOf (azimuth p) (bearing (lat p) (lon p) (lat q) (lon q))) t.
Proof.
  unfold startsVisible, tallyPair. cbn [fst]. intro H.
  unfold JsNum.geb in H. apply leb_le in H.
  apply ltb_ge in H. now rewrite H.
Qed.

Lemma tallyPairs_filter (pairs : list (SunPoint * SunPoint)) (t : Tally) :
  tallyPairs bearing pairs t
  = tallyPairs bearing (filter startsVisible pairs) t.
Proof.
  revert t. induction pairs as [|[p q] pairs IH]; intro t; [reflexivity|].
  cbn [filter]. destruct (startsVisible (p, q)) eqn:E.
  - cbn [tallyPairs fold_left]. apply IH.
  - cbn [tallyPairs fold_left fst snd].
    rewrite (tallyPair_hidden _ _ _ E). apply IH.
Qed.

Lemma tallyPairs_intervals (pairs : list (SunPoint * SunPoint)) (t : Tally) :
  sunIntervals (tallyPairs bearing pairs t)
  = (sunIntervals t + length (filter startsVisible pairs))%nat.
Proof.
  revert t. induction pairs as [|[p q] pairs IH]; intro t.
  - cbn. lia.
  - cbn [tallyPairs fold_left fst snd filter].
    fold (tallyPairs bearing pairs (tallyPair bearing t p q)).
    rewrite IH. destruct (startsVisible (p, q)) eqn:E.
    + rewrite (tallyPair_visible _ _ _ E).
      destruct (countQuadrant_some
        (relAngleOf (azimuth p) (bearing (lat p) (lon p) (lat q) (lon q))) t)
        as [k ->].
      destruct k; cbn; lia.
    + rewrite (tallyPair_hidden _ _ _ E). reflexivity.
Qed.

Lemma tallyPair_cases (t : Tally) (p q : SunPoint) :
  tallyPair bearing t p q = t \/ exists k, tallyPair bearing t p q = bump k t.
Proof.
  destruct (startsVisible (p, q)) eqn:E.
  - right. rewrite (tallyPair_visible _ _ _ E). apply countQuadrant_some.
  - left. apply (tallyPair_hidden _ _ _ E).
Qed.

(** The four counters add up to [sunIntervals]. *)
Lemma tallyPairs_sum (pairs : list (SunPoint * SunPoint)) :
  let t := tallyPairs bearing pairs tally0 in
  (leftCount t + rightCount t + aheadCount t + behindCount t
   = sunIntervals t)%nat.
Proof.
  apply (tallyPairs_inv (fun t =>
    (leftCount t + rightCount t + aheadCount t + behindCount t
     = sunIntervals t)%nat)); [|reflexivity].
  intros t p q Ht.
  destruct (tallyPair_cases t p q) as [-> | [k ->]]; [exact Ht|].
  destruct k; cbn; lia.
Qed.

(** [sunVisible] is set exactly when [sunIntervals] is not zero. *)
Lemma tallyPairs_flag (pairs : list (SunPoint * SunPoint)) :
  let t := tallyPairs bearing pairs tally0 in
  sunVisible t = negb (sunIntervals t =? 0)%nat.
Proof.
  apply (tallyPairs_inv (fun t =>
    sunVisible t = negb (sunIntervals t =? 0)%nat)); [|reflexivity].
  intros t p q Ht.
  destruct (tallyPair_cases t p q) as [-> | [k ->]]; [exact Ht|].
  destruct k; reflexivity.
Qed.

End Classifier.

(** ** Seat recommendation and interval counts *)

(** C1.  For every sample sequence the classifier returns, and its seat
    is the one the policy of the specification picks from the counters:
    the Neither outcome when no interval is visible, otherwise Left when
    left is strictly ahead, Right when right is strictly ahead, and on a
    tie Left when the common count is positive, Neither when it is 0. *)
Theorem seat_follows_policy :
  forall (bearing : Q -> Q -> Q -> Q -> Q) (sunPoints : list SunPoint),
  exists c,
    classify bearing sunPoints = Some c /\
    seat c = policySeat (sunIntervals (tally c)) (leftCount (tally c))
               (rightCount (tally c)).
Proof.
  intros bearing l. eexists. split; [apply classify_total|].
  cbn [seat tally]. unfold seatOf, policySeat.
  rewrite (tallyPairs_flag bearing (adjacent l)).
  now rewrite negb_involutive.
Qed.



(** C3, as the code has it.  The buckets are closed on their upper edge
    in the code as in the quadrant rule, so an angle of exactly 45 is
    counted and labelled Ahead, and an angle of exactly 315 is counted
    and labelled Left. *)
Theorem boundary_angles :
  forall (t : Tally) (r45 r315 : Q),
    r45 == 45 -> r315 == 315 ->
    countQuadrant r45 t = bump Ahead t /\
    relPosition r45 = "Ahead"%string /\
    countQuadrant r315 t = bump Left t /\
    relPosition r315 = "Left"%string.
Proof.
  intros t r45 r315 H45 H315.
  repeat split.
  - apply countQuadrant_rule. cbn. lra.
  - unfold relPosition. qcases; try reflexivity; lra.
  - apply countQuadrant_rule. cbn. lra.
  - unfold relPosition. qcases; try reflexivity; lra.
Qed.

Lemma boundary_angles_witness :
  countQuadrant (90 # 2) tally0 = bump Ahead tally0 /\
  relPosition (90 # 2) = "Ahead"%string /\
  countQuadrant (630 # 2) tally0 = bump Left tally0 /\
  relPosition (630 # 2) = "Left"%string.
Proof.
  apply (boundary_angles tally0 (90 # 2) (630 # 2)); reflexivity.
Defined.

(** C3 as stated fails: with the sun at relative angle 45 and then 315
    (northbound, azimuths 45 and 315), the classifier counts one
    interval Ahead and one Left, none Right; 45 is not counted Right
    and 315 is not counted Ahead. *)
Lemma boundary_angles_counterexample :
  relAngleOf 45 0 == 45 /\
  relAngleOf 315 0 == 315 /\
  classifyLoop Examples.cardinalBearing Examples.edges
  = Some (mkTally 1 0 1 0 true 2) /\
  countQuadrant (relAngleOf 45 0) tally0 <> bump Right tally0 /\
  countQuadrant (relAngleOf 315 0) tally0 <> bump Ahead tally0 /\
  relPosition (relAngleOf 45 0) <> "Right"%string /\
  relPosition (relAngleOf 315 0) <> "Ahead"%string.
Proof.
  repeat split; try (vm_compute; reflexivity); vm_compute; discriminate.
Qed.

(** C7.  The classifier returns for every sample sequence; its
    [sunIntervals] is the number of consecutive pairs whose first sample
    has altitude >= 0, its [totalIntervals] is the sample count minus 1
    (so it counts every consecutive pair of a non-empty sequence), and
    the counters are those of the visible pairs alone: a pair that
    starts below the horizon changes no counter. *)
Theorem interval_counts :
  forall (bearing : Q -> Q -> Q -> Q -> Q) (sunPoints : list SunPoint),
  exists c,
    classify bearing sunPoints = Some c /\
    sunIntervals (tally c)
    = length (filter startsVisible (adjacent sunPoints)) /\
    total c = (Z.of_nat (length sunPoints) - 1)%Z /\
    Z.of_nat (length (adjacent sunPoints)) = Z.max 0 (total c) /\
    tally c
    = tallyPairs bearing (filter startsVisible (adjacent sunPoints)) tally0 /\
    (forall t p q, In (p, q) (adjacent sunPoints) ->
       startsVisible (p, q) = false -> tallyPair bearing t p q = t).
Proof.
  intros bearing l. eexists. split; [apply classify_total|].
  cbn [tally total]. repeat split.
  - now rewrite tallyPairs_intervals.
  - rewrite adjacent_length. unfold totalIntervals. lia.
  - apply tallyPairs_filter.
  - intros t p q _ H. now apply tallyPair_hidden.
Qed.

(** C10.  For every sample sequence (numbers being rationals, hence
    real), each visible interval lands in exactly one bucket, so the
    four counters of the classification add up to [sunIntervals]. *)
Theorem quadrant_counts_sum :
  forall (bearing : Q -> Q -> Q -> Q -> Q) (sunPoints : list SunPoint),
  exists c,
    classify bearing sunPoints = Some c /\
    (leftCount (tally c) + rightCount (tally c) + aheadCount (tally c)
     + behindCount (tally c) = sunIntervals (tally c))%nat /\
    (forall t p q,
        startsVisible (p, q) = true ->
        exists k, tallyPair bearing t p q = bump k t /\
                  forall k', tallyPair bearing t p q = bump k' t -> k' = k).
Proof.
  intros bearing l. eexists. split; [apply classify_total|].
  cbn [tally]. split; [apply tallyPairs_sum|].
  intros t p q Hv. rewrite (tallyPair_visible _ _ _ _ Hv).
  destruct (countQuadrant_some
    (relAngleOf (azimuth p) (bearing (lat p) (lon p) (lat q) (lon q))) t)
    as [k Hk].
  exists k. split; [exact Hk|]. rewrite Hk.
  intros k' E. destruct k, k'; try reflexivity; cbn in E;
    injection E; intros; lia.
Qed.

(** ** The event loop *)

Section Events.

Variable bearing : Q -> Q -> Q -> Q -> Q.
Variable getTimes : Z -> Q -> Q -> SunTimes.

Lemma headingAt_pair (l : list SunPoint) (i : nat) (p q : SunPoint) :
  nth_error l i = Some p ->
  nth_error l (S i) = Some q ->
  headingAt bearing l (S i) q = Some (pairHeading bearing l i p q).
Proof.
  intros Hp Hq. unfold headingAt, pairHeading.
  destruct (Z.ltb_spec (Z.of_nat (S i)) (Z.of_nat (length l) - 1)) as [L|L].
  - rewrite aref_succ.
    destruct (nth_error l (S (S i))) as [r|] eqn:E; [reflexivity|].
    apply nth_error_None in E. lia.
  - destruct (Z.gtb_spec (Z.of_nat (S i)) 0); [|lia].
    rewrite aref_pred, Hp. cbn [bind].
    destruct (nth_error l (S (S i))) as [r|] eqn:E; [|reflexivity].
    assert (S (S i) < length l)%nat
      by (apply nth_error_Some; congruence).
    lia.
Qed.

Lemma emitted_first (l : list SunPoint) (p : SunPoint) :
  nth_error l 0 = Some p -> emitted bearing getTimes l 0 p None = Some [].
Proof.
  intro Hp. unfold emitted, headingAt.
  destruct (Z.ltb_spec (Z.of_nat 0) (Z.of_nat (length l) - 1)) as [L|L].
  - rewrite aref_succ.
    destruct (nth_error l 1) as [r|] eqn:E; [reflexivity|].
    apply nth_error_None in E. lia.
  - reflexivity.
Qed.

Lemma emitted_pair (l : list SunPoint) (i : nat) (p q : SunPoint) :
  nth_error l i = Some p ->
  nth_error l (S i) = Some q ->
  emitted bearing getTimes l (S i) q (Some (altitude p))
  = Some (crossingEvents getTimes p q
            (relPosition
               (relAngleOf (azimuth q) (pairHeading bearing l i p q)))).
Proof.
  intros Hp Hq. unfold emitted.
  rewrite (headingAt_pair l i p q Hp Hq). cbn [bind].
  unfold sunriseBlock, sunsetBlock, crossingEvents, ephemerisTime.
  rewrite aref_pred, Hp. cbn [bind].
  destruct ((altitude p <? 0) && (altitude q >=? 0));
    destruct ((altitude p >=? 0) && (altitude q <? 0)); reflexivity.
Qed.

Lemma pairEvents_eq (l : list SunPoint) (i : nat) (p q : SunPoint) :
  nth_error l i = Some p ->
  nth_error l (S i) = Some q ->
  pairEvents bearing getTimes l i
  = crossingEvents getTimes p q
      (relPosition (relAngleOf (azimuth q) (pairHeading bearing l i p q))).
Proof.
  intros Hp Hq. unfold pairEvents. rewrite Hp, Hq. cbn [bind].
  now rewrite (emitted_pair l i p q Hp Hq).
Qed.

(** The state after the first [k] iterations. *)
Lemma eventLoop_prefix (l : list SunPoint) (k : nat) :
  (k <= length l)%nat ->
  fold_left (eventStep bearing getTimes l) (seq 0 k) (Some ([], None))
  = Some (flat_map (pairEvents bearing getTimes l) (seq 0 (k - 1)),
          match k with
          | O => None
          | S j => option_map altitude (nth_error l j)
          end).
Proof.
  induction k as [|j IH]; intro Hk; [reflexivity|].
  rewrite seq_S, fold_left_app, IH by lia. cbn [plus fold_left].
  destruct (nth_error l j) as [q|] eqn:Hq;
    [|apply nth_error_None in Hq; lia].
  unfold eventStep. cbn [bind]. rewrite aref_nat, Hq. cbn [bind fst snd].
  destruct j as [|i].
  - rewrite (emitted_first l q Hq). reflexivity.
  - destruct (nth_error l i) as [p|] eqn:Hp;
      [|apply nth_error_None in Hp; lia].
    cbn [option_map].
    rewrite (emitted_pair l i p q Hp Hq). cbn [bind].
    replace (S (S i) - 1)%nat with (S i) by lia.
    replace (S i - 1)%nat with i by lia.
    rewrite seq_S, flat_map_app. cbn [plus flat_map].
    rewrite app_nil_r, (pairEvents_eq l i p q Hp Hq). reflexivity.
Qed.

(** The events are those of the consecutive pairs, in order. *)
Lemma detectEvents_pairs (l : list SunPoint) :
  detectEvents bearing getTimes l
  = Some (flat_map (pairEvents bearing getTimes l) (seq 0 (length l - 1))).
Proof.
  unfold detectEvents. now rewrite eventLoop_prefix by lia.
Qed.

(** The shape of what a pair emits, by the signs of its altitudes. *)
Lemma crossingEvents_cases (p q : SunPoint) (position : string) :
  (altitude p < 0 /\ 0 <= altitude q /\
   crossingEvents getTimes p q position
   = [mkSunEvent Sunrise
        (resolveTime (ephemerisTime getTimes Sunrise q) (time p) (time q)
           (- altitude p / (altitude q - altitude p)))
        (lat q) (lon q) (azimuth q) position])
  \/
  (0 <= altitude p /\ altitude q < 0 /\
   crossingEvents getTimes p q position
   = [mkSunEvent Sunset
        (resolveTime (ephemerisTime getTimes Sunset q) (time p) (time q)
           (altitude p / (altitude p - altitude q)))
        (lat q) (lon q) (azimuth q) position])
  \/
  (~ (altitude p < 0 /\ 0 <= altitude q) /\
   ~ (0 <= altitude p /\ altitude q < 0) /\
   crossingEvents getTimes p q position = []).
Proof.
  unfold crossingEvents. qcases; cbn [app].
  all: first [ left; repeat split; solve [assumption | reflexivity]
             | right; left; repeat split; solve [assumption | reflexivity]
             | right; right; repeat split; try reflexivity; lra
             | exfalso; lra ].
Qed.

End Events.

(** ** Time values *)





(** The fraction of the code is the one of the specification. *)
Lemma sunrise_fraction (p q : SunPoint) :
  altitude p < 0 -> 0 <= altitude q ->
  - altitude p / (altitude q - altitude p) == specFraction p q.
Proof.
  intros Hp Hq. unfold specFraction.
  rewrite (Qabs_neg (altitude p)) by lra.
  rewrite (Qabs_pos (altitude q - altitude p)) by lra.
  reflexivity.
Qed.

Lemma sunset_fraction (p q : SunPoint) :
  0 <= altitude p -> altitude q < 0 ->
  altitude p / (altitude p - altitude q) == specFraction p q.
Proof.
  intros Hp Hq. unfold specFraction.
  rewrite (Qabs_pos (altitude p)) by lra.
  rewrite (Qabs_neg (altitude q - altitude p)) by lra.
  apply Qmult_comp; [reflexivity|]. apply Qinv_comp. ring.
Qed.

(** What there is to know about an event of the pair [(p, q)]. *)
Lemma crossingEvents_In (getTimes : Z -> Q -> Q -> SunTimes)
    (p q : SunPoint) (position : string) (e : SunEvent) :
  In e (crossingEvents getTimes p q position) ->
  crossingEvents getTimes p q position = [e] /\
  ev_lat e = lat q /\ ev_lon e = lon q /\ ev_azimuth e = azimuth q /\
  ev_position e = position /\
  exists frac,
    frac == specFraction p q /\
    ev_time e
    = resolveTime (ephemerisTime getTimes (ev_type e) q) (time p) (time q)
        frac.
Proof.
  intro Hin.
  destruct (crossingEvents_cases getTimes p q position)
    as [(Hp & Hq & E) | [(Hp & Hq & E) | (_ & _ & E)]];
    rewrite E in Hin |- *; cbn [In] in Hin;
    try contradiction; destruct Hin as [<- | []]; cbn.
  - repeat split; try reflexivity.
    eexists. split; [apply (sunrise_fraction p q Hp Hq) | reflexivity].
  - repeat split; try reflexivity.
    eexists. split; [apply (sunset_fraction p q Hp Hq) | reflexivity].
Qed.

Lemma relPosition_rule (r : Q) (k : Quadrant) :
  InQuadrant r k -> relPosition r = quadrantLabel k.
Proof.
  unfold relPosition. destruct k; cbn [InQuadrant quadrantLabel];
    intro H; qcases; try reflexivity; lra.
Qed.

(** ** Sunrise and sunset events *)

(** C5.  The detector returns for every sample sequence, and its events
    are those of the consecutive pairs, pair after pair.  The pair
    [(i, i+1)] yields exactly one event, a sunrise, if and only if
    altitude[i] < 0 and altitude[i+1] >= 0; exactly one event, a sunset,
    if and only if altitude[i] >= 0 and altitude[i+1] < 0; and no event
    in every other case. *)
Theorem events_by_pair :
  forall (bearing : Q -> Q -> Q -> Q -> Q)
         (getTimes : Z -> Q -> Q -> SunTimes)
         (sunPoints : list SunPoint) (i : nat) (p q : SunPoint),
    nth_error sunPoints i = Some p ->
    nth_error sunPoints (S i) = Some q ->
    detectEvents bearing getTimes sunPoints
    = Some (flat_map (pairEvents bearing getTimes sunPoints)
              (seq 0 (length sunPoints - 1))) /\
    ((exists e, pairEvents bearing getTimes sunPoints i = [e] /\
                ev_type e = Sunrise)
     <-> altitude p < 0 /\ 0 <= altitude q) /\
    ((exists e, pairEvents bearing getTimes sunPoints i = [e] /\
                ev_type e = Sunset)
     <-> 0 <= altitude p /\ altitude q < 0) /\
    (pairEvents bearing getTimes sunPoints i = []
     <-> ~ (altitude p < 0 /\ 0 <= altitude q) /\
         ~ (0 <= altitude p /\ altitude q < 0)).
Proof.
  intros bearing getTimes l i p q Hp Hq.
  split; [apply detectEvents_pairs|].
  rewrite (pairEvents_eq bearing getTimes l i p q Hp Hq).
  destruct (crossingEvents_cases getTimes p q
              (relPosition
                 (relAngleOf (azimuth q) (pairHeading bearing l i p q))))
    as [(Ha & Hb & E) | [(Ha & Hb & E) | (Ha & Hb & E)]]; rewrite E.
  - split; [|split]; split.
    + tauto.
    + intros _. eexists. split; reflexivity.
    + intros (e & He & Ht). injection He; intros <-. discriminate.
    + intros [H _]. exfalso. lra.
    + discriminate.
    + tauto.
  - split; [|split]; split.
    + intros (e & He & Ht). injection He; intros <-. discriminate.
    + intros [H _]. exfalso. lra.
    + tauto.
    + intros _. eexists. split; reflexivity.
    + discriminate.
    + tauto.
  - split; [|split]; split.
    + intros (e & He & _). discriminate.
    + tauto.
    + intros (e & He & _). discriminate.
    + tauto.
    + tauto.
    + reflexivity.
Qed.

Lemma events_by_pair_witness :
  detectEvents Examples.cardinalBearing Examples.noTimes Examples.dusk
  = Some (flat_map
            (pairEvents Examples.cardinalBearing Examples.noTimes
               Examples.dusk)
            (seq 0 3)) /\
  ((exists e, pairEvents Examples.cardinalBearing Examples.noTimes
                Examples.dusk 1 = [e] /\ ev_type e = Sunrise)
   <-> 4 < 0 /\ 0 <= -2) /\
  ((exists e, pairEvents Examples.cardinalBearing Examples.noTimes
                Examples.dusk 1 = [e] /\ ev_type e = Sunset)
   <-> 0 <= 4 /\ -2 < 0) /\
  (pairEvents Examples.cardinalBearing Examples.noTimes Examples.dusk 1 = []
   <-> ~ (4 < 0 /\ 0 <= -2) /\ ~ (0 <= 4 /\ -2 < 0)).
Proof.
  exact (events_by_pair Examples.cardinalBearing Examples.noTimes
           Examples.dusk 1
           (mkSunPoint 10 0 600000 4 270) (mkSunPoint 20 0 1200000 (-2) 270)
           eq_refl eq_refl).
Defined.




(** C6, as the code has it.  An event of the pair [(i, i+1)] carries
    the latitude, longitude and azimuth of the later sample, and its
    label is the quadrant-rule label of that sample's azimuth against
    the heading of the loop iteration: from sample [i+1] toward sample
    [i+2] when there is one, and from sample [i] to sample [i+1] when
    [i+1] is the last sample. *)
Theorem event_place_and_label :
  forall (bearing : Q -> Q -> Q -> Q -> Q)
         (getTimes : Z -> Q -> Q -> SunTimes)
         (sunPoints : list SunPoint) (i : nat) (p q : SunPoint)
         (e : SunEvent),
    nth_error sunPoints i = Some p ->
    nth_error sunPoints (S i) = Some q ->
    In e (pairEvents bearing getTimes sunPoints i) ->
    ev_lat e = lat q /\ ev_lon e = lon q /\ ev_azimuth e = azimuth q /\
    ev_position e
    = relPosition
        (relAngleOf (azimuth q) (pairHeading bearing sunPoints i p q)) /\
    (forall r, nth_error sunPoints (S (S i)) = Some r ->
               pairHeading bearing sunPoints i p q = headingOf bearing q r) /\
    (nth_error sunPoints (S (S i)) = None ->
     pairHeading bearing sunPoints i p q = headingOf bearing p q) /\
    (forall k,
        InQuadrant
          (relAngleOf (azimuth q) (pairHeading bearing sunPoints i p q)) k ->
        ev_position e = quadrantLabel k).
Proof.
  intros bearing getTimes l i p q e Hp Hq Hin.
  rewrite (pairEvents_eq bearing getTimes l i p q Hp Hq) in Hin.
  apply crossingEvents_In in Hin.
  destruct Hin as (_ & Hlat & Hlon & Haz & Hpos & _).
  repeat split; try assumption.
  - intros r Hr. unfold pairHeading. now rewrite Hr.
  - intros Hr. unfold pairHeading. now rewrite Hr.
  - intros k Hk. rewrite Hpos. now apply relPosition_rule.
Qed.

Lemma event_place_and_label_witness :
  ev_position (mkSunEvent Sunrise 375000 0 10 90 "Right")
  = relPosition
      (relAngleOf 90
         (pairHeading Examples.cardinalBearing Examples.turn 0
            (mkSunPoint 0 0 0 (-5) 90) (mkSunPoint 0 10 600000 3 90))).
Proof.
  exact (proj1 (proj2 (proj2 (proj2
    (event_place_and_label Examples.cardinalBearing Examples.noTimes
       Examples.turn 0
       (mkSunPoint 0 0 0 (-5) 90) (mkSunPoint 0 10 600000 3 90)
       (mkSunEvent Sunrise 375000 0 10 90 "Right")
       eq_refl eq_refl (or_introl eq_refl)))))).
Defined.

(** C6 as stated fails on its heading: flying east along the equator
    and then north, with the sun rising due east in the first interval,
    the event is labelled Right (heading of the next interval, north),
    while the heading between the bracketing samples (east) gives
    Ahead. *)
Lemma event_place_and_label_counterexample :
  detectEvents Examples.cardinalBearing Examples.noTimes Examples.turn
  = Some [mkSunEvent Sunrise 375000 0 10 90 "Right"] /\
  pairEvents Examples.cardinalBearing Examples.noTimes Examples.turn 0
  = [mkSunEvent Sunrise 375000 0 10 90 "Right"] /\
  relPosition
    (relAngleOf 90
       (headingOf Examples.cardinalBearing
          (mkSunPoint 0 0 0 (-5) 90) (mkSunPoint 0 10 600000 3 90)))
  = "Ahead"%string /\
  ~ (forall e,
        In e (pairEvents Examples.cardinalBearing Examples.noTimes
                Examples.turn 0) ->
        ev_position e
        = relPosition
            (relAngleOf 90
               (headingOf Examples.cardinalBearing
                  (mkSunPoint 0 0 0 (-5) 90)
                  (mkSunPoint 0 10 600000 3 90)))).
Proof.
  repeat split; try reflexivity.
  intro H.
  specialize (H (mkSunEvent Sunrise 375000 0 10 90 "Right")
                (or_introl eq_refl)).
  vm_compute in H. discriminate.
Qed.

(** ** Route segmentation *)

Lemma last_snoc_split {A : Type} (s : list A) (d : A) :
  s <> [] -> exists pre, s = pre ++ [last s d].
Proof.
  intro H. destruct (exists_last H) as (pre & a & ->).
  exists pre. now rewrite last_last.
Qed.

Lemma Smooth_snoc (s : list (Q * Q)) (pt : Q * Q) :
  s <> [] -> Smooth s -> ~ Jump (last s pt) pt -> Smooth (s ++ [pt]).
Proof.
  induction s as [|a [|b r] IH]; intros Hne Hs Hj; [congruence | |].
  - cbn in *. tauto.
  - change (Smooth (a :: (b :: r) ++ [pt])).
    change (~ Jump a b /\ Smooth ((b :: r) ++ [pt])).
    destruct Hs as [Hab Hr]. split; [exact Hab|].
    apply IH; [discriminate | exact Hr | exact Hj].
Qed.

(** A further segment after a jump. *)
Lemma Broken_snoc (segs : list (list (Q * Q))) (pre : list (Q * Q))
    (a b : Q * Q) :
  Broken (segs ++ [pre ++ [a]]) -> Jump a b ->
  Broken ((segs ++ [pre ++ [a]]) ++ [[b]]).
Proof.
  intros H Hj. induction segs as [|s segs IH].
  - cbn [app Broken]. split; [|exact I].
    exists pre, a, b, []. repeat split. exact Hj.
  - cbn [app] in *.
    destruct (segs ++ [pre ++ [a]]) as [|s' rest] eqn:E.
    + destruct segs; discriminate.
    + destruct H as [Hd Hb]. cbn [app]. split; [exact Hd|].
      apply IH, Hb.
Qed.

(** A longer last segment. *)
Lemma Broken_extend (segs : list (list (Q * Q))) (cur : list (Q * Q))
    (pt : Q * Q) :
  cur <> [] -> Broken (segs ++ [cur]) -> Broken (segs ++ [cur ++ [pt]]).
Proof.
  intros Hne. induction segs as [|s segs IH]; intro H; [exact I|].
  cbn [app] in *.
  destruct segs as [|s' segs].
  - cbn [app] in *. destruct H as [(pre & a & b & post & -> & -> & Hj) _].
    split; [|exact I].
    exists pre, a, b, (post ++ [pt]). repeat split. exact Hj.
  - cbn [app] in *. destruct H as [Hd Hb]. split; [exact Hd|].
    apply IH, Hb.
Qed.

Lemma segment_loop (pts : list (Q * Q)) :
  (pts = [] /\ fold_left segmentStep pts ([], []) = ([], [])) \/
  (exists segs cur,
      fold_left segmentStep pts ([], []) = (segs, cur) /\
      cur <> [] /\ Segmented pts (segs ++ [cur])).
Proof.
  induction pts as [|pt pts IH] using rev_ind; [left; split; reflexivity|].
  right. rewrite fold_left_app. cbn [fold_left].
  destruct IH as [[-> ->] | (segs & cur & -> & Hne & Hc & Hn & Hs & Hb)].
  - exists [], [pt]. cbn. repeat split; try discriminate;
      repeat constructor; discriminate.
  - unfold segmentStep. destruct cur as [|c cur']; [congruence|].
    set (cur := c :: cur') in *.
    destruct (last_snoc_split cur pt Hne) as [pre Hpre].
    unfold JsNum.gtb, JsNum.abs.
    destruct (JsNum.ltb 180 (Qabs (snd pt - snd (last cur pt)))) eqn:E.
    + apply ltb_lt in E.
      exists (segs ++ [cur]), [pt].
      split; [reflexivity|]. split; [discriminate|].
      repeat split.
      * rewrite concat_app, Hc. reflexivity.
      * apply Forall_app. split; [exact Hn|].
        constructor; [discriminate | constructor].
      * apply Forall_app. split; [exact Hs|].
        constructor; [exact I | constructor].
      * rewrite Hpre in Hb |- *. apply Broken_snoc; assumption.
    + apply ltb_ge in E.
      exists segs, (cur ++ [pt]).
      split; [reflexivity|].
      split; [intro H; apply app_eq_nil in H; destruct H; discriminate|].
      apply Forall_app in Hn. destruct Hn as [Hn1 Hn2].
      apply Forall_app in Hs. destruct Hs as [Hs1 Hs2].
      rewrite concat_app in Hc. cbn [concat] in Hc.
      rewrite app_nil_r in Hc.
      repeat split.
      * rewrite concat_app. cbn [concat].
        rewrite app_nil_r, app_assoc, Hc. reflexivity.
      * apply Forall_app. split; [exact Hn1|].
        constructor; [|constructor].
        intro H; apply app_eq_nil in H; destruct H; discriminate.
      * apply Forall_app. split; [exact Hs1|].
        constructor; [|constructor].
        apply Smooth_snoc; [exact Hne | now inversion Hs2 |].
        unfold Jump. intro J. exact (Qlt_not_le _ _ J E).
      * apply Broken_extend; assumption.
Qed.

(** C8.  For every point sequence, the segments of [segmentPoints] (the
    second half of [createFlightPath]) are non-empty, concatenate to
    the sequence, have no longitude step above 180 degrees between
    neighbours inside a segment, and every segment boundary is a step
    above 180 degrees: a new segment starts exactly at those steps.
    The same holds for the flight path built from any route. *)
Theorem segments_split_at_jumps :
  forall (interpolateGreatCircle : Q -> Q -> Q -> Q -> Q -> Q * Q)
         (points : list (Q * Q)) (lat1 lon1 lat2 lon2 : Q),
    (concat (segmentPoints points) = points /\
     Forall (fun s => s <> []) (segmentPoints points) /\
     Forall Smooth (segmentPoints points) /\
     Broken (segmentPoints points)) /\
    (concat (createFlightPath interpolateGreatCircle lat1 lon1 lat2 lon2)
     = routePoints interpolateGreatCircle lat1 lon1 lat2 lon2 /\
     Forall Smooth
       (createFlightPath interpolateGreatCircle lat1 lon1 lat2 lon2) /\
     Broken (createFlightPath interpolateGreatCircle lat1 lon1 lat2 lon2)).
Proof.
  assert (H : forall pts, Segmented pts (segmentPoints pts)).
  { intro pts. unfold segmentPoints.
    destruct (segment_loop pts) as [[-> ->] | (segs & cur & -> & Hne & Hg)].
    - cbn. repeat split; constructor.
    - destruct cur; [congruence | exact Hg]. }
  intros interp points lat1 lon1 lat2 lon2. split.
  - exact (H points).
  - unfold createFlightPath.
    destruct (H (routePoints interp lat1 lon1 lat2 lon2))
      as (Hc & _ & Hs & Hb).
    repeat split; assumption.
Qed.

(** ** The solar sampler *)

Section SamplerProperties.

Import SolarSampler.

Variable greatCirclePoint : GeoPoint -> GeoPoint -> Q -> GeoPoint.
Variable solarState : Q -> GeoPoint -> Q * Q.

Lemma stepCount_covers (durationHours intervalMinutes : Q) :
  0 < durationHours -> 0 < intervalMinutes ->
  durationHours * 60
  <= inject_Z (stepCount durationHours intervalMinutes) * intervalMinutes.
Proof.
  intros Hd Hi. unfold stepCount.
  pose proof (Qle_ceiling (durationHours * 60 / intervalMinutes)) as Hc.
  apply (Qmult_le_compat_r _ _ intervalMinutes) in Hc; [|lra].
  assert (E : durationHours * 60 / intervalMinutes * intervalMinutes
              == durationHours * 60) by (field; lra).
  now rewrite E in Hc.
Qed.

Lemma stepCount_pos (durationHours intervalMinutes : Q) :
  0 < durationHours -> 0 < intervalMinutes ->
  (0 < stepCount durationHours intervalMinutes)%Z.
Proof.
  intros Hd Hi.
  pose proof (stepCount_covers _ _ Hd Hi) as Hc.
  destruct (Z.lt_ge_cases 0 (stepCount durationHours intervalMinutes))
    as [L | G]; [exact L | exfalso].
  assert (Hz : inject_Z (stepCount durationHours intervalMinutes) <= 0).
  { change 0 with (inject_Z 0). rewrite <- Zle_Qle. exact G. }
  nra.
Qed.

Lemma fraction_last (durationHours intervalMinutes : Q) :
  0 < durationHours -> 0 < intervalMinutes ->
  fractionAt durationHours intervalMinutes
    (Z.to_nat (stepCount durationHours intervalMinutes)) == 1.
Proof.
  intros Hd Hi. unfold fractionAt.
  rewrite Z2Nat.id by (pose proof (stepCount_pos _ _ Hd Hi); lia).
  apply Q.min_r.
  apply Qle_shift_div_l; [lra|].
  pose proof (stepCount_covers _ _ Hd Hi). lra.
Qed.

End SamplerProperties.

(** C9.  In the sampler of the specification: for a positive duration
    and a positive interval, [sampleRoute] returns a non-empty sequence
    of [n + 1] samples whose last one is the sample of step [n], at
    fraction 1 exactly, with timestamp [departureUTC + durationHours]
    hours, whether or not the duration is a multiple of the interval. *)
Theorem last_sample_is_arrival :
  forall (greatCirclePoint :
            SolarSampler.GeoPoint -> SolarSampler.GeoPoint -> Q
            -> SolarSampler.GeoPoint)
         (solarState : Q -> SolarSampler.GeoPoint -> Q * Q)
         (origin destination : SolarSampler.GeoPoint) (departureUTC : Z)
         (durationHours intervalMinutes : Q),
    0 < durationHours -> 0 < intervalMinutes ->
    exists init lastSample,
      SolarSampler.sampleRoute greatCirclePoint solarState origin
        destination departureUTC durationHours intervalMinutes
      = inr (init ++ [lastSample]) /\
      length init
      = Z.to_nat (SolarSampler.stepCount durationHours intervalMinutes) /\
      lastSample
      = SolarSampler.sampleAt greatCirclePoint solarState origin
          destination departureUTC durationHours intervalMinutes
          (Z.to_nat (SolarSampler.stepCount durationHours intervalMinutes)) /\
      SolarSampler.fractionAt durationHours intervalMinutes
        (Z.to_nat (SolarSampler.stepCount durationHours intervalMinutes))
      == 1 /\
      SolarSampler.timestamp lastSample
      == inject_Z departureUTC + durationHours * SolarSampler.msPerHour.
Proof.
  intros gcp solar origin destination dep dur int Hd Hi.
  set (n := Z.to_nat (SolarSampler.stepCount dur int)).
  exists (map (SolarSampler.sampleAt gcp solar origin destination dep dur int)
            (seq 0 n)),
         (SolarSampler.sampleAt gcp solar origin destination dep dur int n).
  pose proof (fraction_last dur int Hd Hi) as Hf. fold n in Hf.
  repeat split.
  - unfold SolarSampler.sampleRoute.
    assert (E1 : (dur <=? 0) = false) by now apply leb_gt.
    assert (E2 : (int <=? 0) = false) by now apply leb_gt.
    rewrite E1, E2. cbn [orb]. fold n.
    now rewrite seq_S, map_app.
  - now rewrite length_map, length_seq.
  - exact Hf.
  - unfold SolarSampler.sampleAt. cbn [SolarSampler.timestamp].
    rewrite Hf. ring.
Qed.

Lemma last_sample_is_arrival_witness :
  exists init lastSample,
    SolarSampler.sampleRoute Examples.chordPoint Examples.fixedSun
      Examples.jfk Examples.lax 1721649600000 (11 # 2) 7
    = inr (init ++ [lastSample]) /\
    length init = Z.to_nat (SolarSampler.stepCount (11 # 2) 7) /\
    lastSample
    = SolarSampler.sampleAt Examples.chordPoint Examples.fixedSun
        Examples.jfk Examples.lax 1721649600000 (11 # 2) 7
        (Z.to_nat (SolarSampler.stepCount (11 # 2) 7)) /\
    SolarSampler.fractionAt (11 # 2) 7
      (Z.to_nat (SolarSampler.stepCount (11 # 2) 7))
    == 1 /\
    SolarSampler.timestamp lastSample
    == inject_Z 1721649600000 + (11 # 2) * SolarSampler.msPerHour.
Proof.
  apply (last_sample_is_arrival Examples.chordPoint Examples.fixedSun
           Examples.jfk Examples.lax 1721649600000 (11 # 2) 7);
    reflexivity.
Defined.

(** ** Worked examples *)

(** Northbound with the sun first at 45 and then at 315 degrees off the
    nose: one interval Ahead, one Left, seat Left. *)
Example classify_edges :
  classify Examples.cardinalBearing Examples.edges
  = Some (mkClassification "Left" (mkTally 1 0 1 0 true 2) 2).
Proof. reflexivity. Qed.

(** The sun sets during the third of three intervals: the interval that
    starts below the horizon is in the total only. *)
Example classify_dusk :
  classify Examples.cardinalBearing Examples.dusk
  = Some (mkClassification "Left" (mkTally 2 0 0 0 true 2) 3).
Proof. reflexivity. Qed.

(** No sample, no interval: the total is -1 as in the code. *)
Example classify_nothing :
  classify Examples.cardinalBearing []
  = Some (mkClassification neitherSeat tally0 (-1)).
Proof. reflexivity. Qed.

(** The sunset of [dusk], interpolated at two thirds of its bracket. *)
Example detect_dusk :
  detectEvents Examples.cardinalBearing Examples.noTimes Examples.dusk
  = Some [mkSunEvent Sunset 1000000 20 0 270 "Left"].
Proof. reflexivity. Qed.

(** An ephemeris sunrise inside the bracket replaces the interpolation. *)
Example detect_dawn_ephemeris :
  detectEvents Examples.cardinalBearing Examples.riseAt4 Examples.dawn
  = Some [mkSunEvent Sunrise 240000 0 10 90 "Ahead"].
Proof. reflexivity. Qed.

(** One cut, between longitudes 178 and -175. *)
Example segment_pacific :
  segmentPoints Examples.pacific
  = [ [ (35, 170); (36, 178) ]; [ (37, -175); (38, -168) ] ].
Proof. reflexivity. Qed.

(** A negative dividend keeps its sign under [%]. *)
Example rem_negative : JsNum.rem (-90) 360 == -90.
Proof. reflexivity. Qed.

(** * Further properties of the component *)

(** ** More on the classifier *)

Lemma truncate_nonpos (x : Q) : x <= 0 -> JsNum.truncate x = Qceiling x.
Proof.
  destruct x as [n d]. unfold Qle, JsNum.truncate, Qceiling, Qfloor. cbn.
  intro H.
  replace n with (- - n)%Z at 1 by lia.
  rewrite Z.quot_opp_l by lia. f_equal.
  apply Z.quot_div_nonneg; lia.
Qed.

(** The remainder of a negative dividend is in [(-360, 0]]. *)
Lemma rem_nonpos (x : Q) :
  x <= 0 -> - 360 < JsNum.rem x 360 /\ JsNum.rem x 360 <= 0.
Proof.
  intro H. unfold JsNum.rem.
  rewrite truncate_nonpos by (apply Qle_shift_div_r; lra).
  pose proof (Qle_ceiling (x / 360)) as Hlo.
  pose proof (Qceiling_lt (x / 360)) as Hhi.
  unfold Z.sub in Hhi. rewrite inject_Z_plus in Hhi.
  change (inject_Z (- (1))) with (- (1)) in Hhi.
  set (k := inject_Z (Qceiling (x / 360))) in *.
  assert (Hx : x == (x / 360) * 360) by field.
  split; lra.
Qed.


(** X1.  The seat is Right exactly when the right count is strictly
    ahead, Left exactly when the left count is positive and not
    behind, and the Neither message exactly when both counts are 0,
    whether or not the sun was visible ahead or behind. *)
Theorem seat_characterised :
  forall (bearing : Q -> Q -> Q -> Q -> Q) (sunPoints : list SunPoint),
  exists c,
    classify bearing sunPoints = Some c /\
    (seat c = "Right"%string
     <-> (leftCount (tally c) < rightCount (tally c))%nat) /\
    (seat c = "Left"%string
     <-> (rightCount (tally c) <= leftCount (tally c))%nat /\
         (0 < leftCount (tally c))%nat) /\
    (seat c = neitherSeat
     <-> leftCount (tally c) = 0%nat /\ rightCount (tally c) = 0%nat).
Proof.
  intros bearing l. eexists. split; [apply classify_total|].
  cbn [seat tally]. unfold seatOf.
  pose proof (tallyPairs_flag bearing (adjacent l)) as Hf.
  pose proof (tallyPairs_sum bearing (adjacent l)) as Hs.
  cbn zeta in Hf, Hs.
  set (t := tallyPairs bearing (adjacent l) tally0) in *.
  rewrite Hf, negb_involutive. unfold neitherSeat.
  destruct (Nat.eqb_spec (sunIntervals t) 0) as [E0|E0];
    [| destruct (Nat.ltb_spec (rightCount t) (leftCount t));
       [| destruct (Nat.ltb_spec (leftCount t) (rightCount t));
          [| destruct (Nat.ltb_spec 0 (leftCount t))]]].
  all: repeat split; try discriminate; intros; try lia; try reflexivity.
Qed.

(** X2.  When [azimuth - heading + 360] is negative (an azimuth or a
    heading outside [[0, 360)]), the [%] operator returns an angle in
    [(-360, 0]], and the interval is counted, and an event labelled,
    Ahead. *)
Theorem negative_angle_is_ahead :
  forall (az heading : Q) (t : Tally),
    az - heading + 360 < 0 ->
    - 360 < relAngleOf az heading /\
    relAngleOf az heading <= 0 /\
    countQuadrant (relAngleOf az heading) t = bump Ahead t /\
    relPosition (relAngleOf az heading) = "Ahead"%string.
Proof.
  intros az h t H. unfold relAngleOf.
  destruct (rem_nonpos (az - h + 360)) as [Hlo Hhi]; [lra|].
  set (r := JsNum.rem (az - h + 360) 360) in *.
  repeat split; try assumption.
  - unfold countQuadrant. qcases; try reflexivity; lra.
  - unfold relPosition. qcases; try reflexivity; lra.
Qed.

Lemma negative_angle_is_ahead_witness :
  - 360 < relAngleOf (-170) 350 /\
  relAngleOf (-170) 350 <= 0 /\
  countQuadrant (relAngleOf (-170) 350) tally0 = bump Ahead tally0 /\
  relPosition (relAngleOf (-170) 350) = "Ahead"%string.
Proof.
  apply (negative_angle_is_ahead (-170) 350 tally0). reflexivity.
Defined.


(** X4.  The visible intervals never outnumber the intervals, no
    counter exceeds the visible intervals, and when [sunVisible] is
    set both [sunIntervals] and [totalIntervals] are at least 1, so
    that the percentages of the summary never divide by zero. *)
Theorem counters_bounded :
  forall (bearing : Q -> Q -> Q -> Q -> Q) (sunPoints : list SunPoint),
  exists c,
    classify bearing sunPoints = Some c /\
    (Z.of_nat (sunIntervals (tally c)) <= Z.max 0 (total c))%Z /\
    (leftCount (tally c) <= sunIntervals (tally c))%nat /\
    (rightCount (tally c) <= sunIntervals (tally c))%nat /\
    (aheadCount (tally c) <= sunIntervals (tally c))%nat /\
    (behindCount (tally c) <= sunIntervals (tally c))%nat /\
    (sunVisible (tally c) = true ->
     (1 <= sunIntervals (tally c))%nat /\ (1 <= total c)%Z).
Proof.
  intros bearing l. eexists. split; [apply classify_total|].
  cbn [tally total].
  pose proof (tallyPairs_flag bearing (adjacent l)) as Hf.
  pose proof (tallyPairs_sum bearing (adjacent l)) as Hs.
  pose proof (tallyPairs_intervals bearing (adjacent l) tally0) as Hi.
  pose proof (filter_length_le startsVisible (adjacent l)) as Hle.
  rewrite adjacent_length in Hle.
  cbn zeta in Hf, Hs. cbn [sunIntervals tally0 plus] in Hi.
  set (t := tallyPairs bearing (adjacent l) tally0) in *.
  unfold totalIntervals.
  repeat split; try lia.
  - destruct (Nat.eqb_spec (sunIntervals t) 0); [|lia].
    rewrite Hf in H. discriminate.
  - destruct (Nat.eqb_spec (sunIntervals t) 0); [|lia].
    rewrite Hf in H. discriminate.
Qed.

Lemma tallyPairs_last (bearing : Q -> Q -> Q -> Q -> Q)
    (l : list SunPoint) (p p' : SunPoint) (t : Tally) :
  lat p = lat p' -> lon p = lon p' ->
  tallyPairs bearing (adjacent (l ++ [p])) t
  = tallyPairs bearing (adjacent (l ++ [p'])) t.
Proof.
  intros Hlat Hlon. revert t.
  induction l as [|a [|b r] IH]; intro t; [reflexivity | |].
  - cbn. unfold tallyPair. now rewrite Hlat, Hlon.
  - change (adjacent ((a :: b :: r) ++ [p]))
      with ((a, b) :: adjacent ((b :: r) ++ [p])).
    change (adjacent ((a :: b :: r) ++ [p']))
      with ((a, b) :: adjacent ((b :: r) ++ [p'])).
    cbn [tallyPairs fold_left]. apply IH.
Qed.

(** X5.  The classification reads the last sample for its place only:
    two sequences that differ in the time, altitude and azimuth of
    their last sample get the same seat, counters and total. *)
Theorem last_sample_sun_ignored :
  forall (bearing : Q -> Q -> Q -> Q -> Q) (sunPoints : list SunPoint)
         (p p' : SunPoint),
    lat p = lat p' -> lon p = lon p' ->
    classify bearing (sunPoints ++ [p])
    = classify bearing (sunPoints ++ [p']).
Proof.
  intros bearing l p p' Hlat Hlon.
  rewrite !classify_total.
  rewrite (tallyPairs_last bearing l p p' tally0 Hlat Hlon).
  unfold totalIntervals. now rewrite !length_app.
Qed.

Lemma last_sample_sun_ignored_witness :
  classify Examples.cardinalBearing
    ([mkSunPoint 0 0 0 10 45] ++ [mkSunPoint 10 0 600000 10 315])
  = classify Examples.cardinalBearing
      ([mkSunPoint 0 0 0 10 45] ++ [mkSunPoint 10 0 900000 (-20) 90]).
Proof.
  apply (last_sample_sun_ignored Examples.cardinalBearing
           [mkSunPoint 0 0 0 10 45]
           (mkSunPoint 10 0 600000 10 315)
           (mkSunPoint 10 0 900000 (-20) 90)); reflexivity.
Defined.

(** ** More on the events *)

Lemma Chain_snoc {A : Type} (R : A -> A -> Prop) (l : list A) (x : A) :
  Chain R l ->
  (forall pre a, l = pre ++ [a] -> R a x) ->
  Chain R (l ++ [x]).
Proof.
  induction l as [|a [|b r] IH]; intros Hc Hl; [exact I | |].
  - cbn. split; [|exact I]. now apply (Hl [] a).
  - change (R a b /\ Chain R ((b :: r) ++ [x])).
    destruct Hc as [Hab Hr]. split; [exact Hab|].
    apply IH; [exact Hr|].
    intros pre c E. apply (Hl (a :: pre) c). cbn. now rewrite E.
Qed.

Lemma Chain_nth {A : Type} (R : A -> A -> Prop) (l : list A) (i : nat)
    (p q : A) :
  Chain R l ->
  nth_error l i = Some p -> nth_error l (S i) = Some q -> R p q.
Proof.
  revert i. induction l as [|a [|b r] IH]; intros i Hc Hp Hq.
  - destruct i; discriminate.
  - destruct i as [|[|i]]; discriminate.
  - destruct Hc as [Hab Hr]. destruct i as [|i].
    + cbn in Hp, Hq. congruence.
    + apply (IH i Hr); assumption.
Qed.

Lemma truncate_between (x : Q) (a b : Z) :
  inject_Z a <= x -> x <= inject_Z b ->
  (a <= JsNum.truncate x <= b)%Z.
Proof.
  intros Ha Hb. destruct (Qlt_le_dec x 0) as [Hneg | Hpos].
  - rewrite truncate_nonpos by lra. split.
    + rewrite Zle_Qle. pose proof (Qle_ceiling x). lra.
    + rewrite <- (Qceiling_Z b). now apply Qceiling_resp_le.
  - rewrite truncate_nonneg by exact Hpos. split.
    + rewrite <- (Qfloor_Z a). now apply Qfloor_resp_le.
    + rewrite Zle_Qle. pose proof (Qfloor_le x). lra.
Qed.

Lemma resolveTime_between (eph : option Z) (t0 t1 : Z) (frac : Q) :
  (t0 <= t1)%Z -> 0 <= frac -> frac <= 1 ->
  (t0 <= resolveTime eph t0 t1 frac <= t1)%Z.
Proof.
  intros Ht H0 H1.
  assert (Hi : (t0 <= interpolateTime t0 t1 frac <= t1)%Z).
  { unfold interpolateTime, JsNum.newDate.
    assert (Hd : 0 <= inject_Z t1 - inject_Z t0)
      by (rewrite Zle_Qle in Ht; lra).
    apply truncate_between; nra. }
  unfold resolveTime. destruct eph as [t|]; [|exact Hi].
  destruct (Z.geb_spec t t0); [|exact Hi].
  destruct (Z.leb_spec t t1); cbn [andb]; [lia | exact Hi].
Qed.

(** The time of an event of the pair [(p, q)] is inside the bracket. *)
Lemma crossingEvents_time (getTimes : Z -> Q -> Q -> SunTimes)
    (p q : SunPoint) (position : string) (e : SunEvent) :
  (time p <= time q)%Z ->
  In e (crossingEvents getTimes p q position) ->
  (time p <= ev_time e <= time q)%Z.
Proof.
  intros Ht Hin.
  destruct (crossingEvents_cases getTimes p q position)
    as [(Hp & Hq & E) | [(Hp & Hq & E) | (_ & _ & E)]];
    rewrite E in Hin; cbn [In] in Hin;
    try contradiction; destruct Hin as [<- | []]; cbn [ev_time].
  - apply resolveTime_between; [exact Ht | |].
    + apply Qle_shift_div_l; lra.
    + apply Qle_shift_div_r; lra.
  - apply resolveTime_between; [exact Ht | |].
    + apply Qle_shift_div_l; lra.
    + apply Qle_shift_div_r; lra.
Qed.

(** X6.  When the later sample of a pair is not earlier than the
    former, the time of an event of the pair lies between the times of
    the two samples, whether it comes from the ephemeris or from the
    interpolation. *)
Theorem event_time_in_bracket :
  forall (bearing : Q -> Q -> Q -> Q -> Q)
         (getTimes : Z -> Q -> Q -> SunTimes)
         (sunPoints : list SunPoint) (i : nat) (p q : SunPoint)
         (e : SunEvent),
    nth_error sunPoints i = Some p ->
    nth_error sunPoints (S i) = Some q ->
    (time p <= time q)%Z ->
    In e (pairEvents bearing getTimes sunPoints i) ->
    (time p <= ev_time e <= time q)%Z.
Proof.
  intros bearing getTimes l i p q e Hp Hq Ht Hin.
  rewrite (pairEvents_eq bearing getTimes l i p q Hp Hq) in Hin.
  exact (crossingEvents_time getTimes p q _ e Ht Hin).
Qed.

Lemma event_time_in_bracket_witness :
  (600000 <= 1000000 <= 1200000)%Z.
Proof.
  exact (event_time_in_bracket Examples.cardinalBearing Examples.noTimes
           Examples.dusk 1
           (mkSunPoint 10 0 600000 4 270) (mkSunPoint 20 0 1200000 (-2) 270)
           (mkSunEvent Sunset 1000000 20 0 270 "Left")
           eq_refl eq_refl ltac:(discriminate) (or_introl eq_refl)).
Defined.

(** What a pair adds to the list of events. *)
Lemma pairEvents_step (bearing : Q -> Q -> Q -> Q -> Q)
    (getTimes : Z -> Q -> Q -> SunTimes) (l : list SunPoint) (i : nat)
    (p q : SunPoint) :
  nth_error l i = Some p ->
  nth_error l (S i) = Some q ->
  (altitude p < 0 /\ 0 <= altitude q /\
   exists e, pairEvents bearing getTimes l i = [e] /\ ev_type e = Sunrise)
  \/
  (0 <= altitude p /\ altitude q < 0 /\
   exists e, pairEvents bearing getTimes l i = [e] /\ ev_type e = Sunset)
  \/
  ((altitude p < 0 <-> altitude q < 0) /\
   pairEvents bearing getTimes l i = []).
Proof.
  intros Hp Hq. rewrite (pairEvents_eq bearing getTimes l i p q Hp Hq).
  destruct (crossingEvents_cases getTimes p q
              (relPosition
                 (relAngleOf (azimuth q) (pairHeading bearing l i p q))))
    as [(Ha & Hb & E) | [(Ha & Hb & E) | (Ha & Hb & E)]]; rewrite E.
  - left. repeat split; try assumption. eexists. split; reflexivity.
  - right. left. repeat split; try assumption.
    eexists. split; reflexivity.
  - right. right. split; [|reflexivity].
    destruct (Qlt_le_dec (altitude p) 0), (Qlt_le_dec (altitude q) 0);
      split; intro; try assumption; try lra; exfalso; tauto.
Qed.

(** The events of the first [k] pairs take turns, the last of them
    tells the side of the horizon of sample [k], and the first of them
    that of sample 0. *)
Lemma alternation_prefix (bearing : Q -> Q -> Q -> Q -> Q)
    (getTimes : Z -> Q -> Q -> SunTimes) (l : list SunPoint)
    (p0 : SunPoint) (k : nat) :
  nth_error l 0 = Some p0 ->
  (k < length l)%nat ->
  exists cur,
    nth_error l k = Some cur /\
    Alternating (flat_map (pairEvents bearing getTimes l) (seq 0 k)) /\
    ((flat_map (pairEvents bearing getTimes l) (seq 0 k) = [] /\
      (altitude cur < 0 <-> altitude p0 < 0))
     \/
     (exists pre e first rest,
         flat_map (pairEvents bearing getTimes l) (seq 0 k) = pre ++ [e] /\
         flat_map (pairEvents bearing getTimes l) (seq 0 k) = first :: rest /\
         (ev_type first = Sunrise <-> altitude p0 < 0) /\
         (ev_type e = Sunrise -> 0 <= altitude cur) /\
         (ev_type e = Sunset -> altitude cur < 0))).
Proof.
  intros H0. induction k as [|k IH]; intro Hk.
  - exists p0. split; [exact H0|]. split; [exact I|]. left. now split.
  - destruct IH as (cur & Hcur & Halt & Hstate); [lia|].
    destruct (nth_error l (S k)) as [nxt|] eqn:Hnxt;
      [|apply nth_error_None in Hnxt; lia].
    exists nxt. split; [reflexivity|].
    rewrite seq_S, flat_map_app. cbn [plus flat_map]. rewrite app_nil_r.
    set (evs := flat_map (pairEvents bearing getTimes l) (seq 0 k)) in *.
    destruct (pairEvents_step bearing getTimes l k cur nxt Hcur Hnxt)
      as [(Ha & Hb & e & -> & Hty) | [(Ha & Hb & e & -> & Hty)
         | (Hsame & ->)]].
    + destruct Hstate as [[Hnil Hsign]
        | (pre & e' & first & rest & Hsn & Hcons & Hf & Hr & Hs)].
      * split; [rewrite Hnil; exact I|]. right.
        exists [], e, e, []. rewrite Hnil. repeat split; try reflexivity.
        -- intros _. now apply Hsign.
        -- intros _. exact Hty.
        -- intros _. exact Hb.
        -- rewrite Hty. discriminate.
      * assert (He' : ev_type e' = Sunset).
        { destruct (ev_type e') eqn:E; [|reflexivity].
          specialize (Hr eq_refl). lra. }
        split.
        -- apply Chain_snoc; [exact Halt|].
           intros pre2 a E2. rewrite Hsn in E2.
           apply app_inj_tail in E2. destruct E2 as [_ <-].
           rewrite He', Hty. discriminate.
        -- right. exists evs, e, first, (rest ++ [e]).
           rewrite Hcons. repeat split; try reflexivity; try tauto.
           rewrite Hty. discriminate.
    + destruct Hstate as [[Hnil Hsign]
        | (pre & e' & first & rest & Hsn & Hcons & Hf & Hr & Hs)].
      * split; [rewrite Hnil; exact I|]. right.
        exists [], e, e, []. rewrite Hnil. repeat split; try reflexivity.
        -- rewrite Hty. discriminate.
        -- intro Hp0. apply Hsign in Hp0. lra.
        -- rewrite Hty. discriminate.
        -- intros _. exact Hb.
      * assert (He' : ev_type e' = Sunrise).
        { destruct (ev_type e') eqn:E; [reflexivity|].
          specialize (Hs eq_refl). lra. }
        split.
        -- apply Chain_snoc; [exact Halt|].
           intros pre2 a E2. rewrite Hsn in E2.
           apply app_inj_tail in E2. destruct E2 as [_ <-].
           rewrite He', Hty. discriminate.
        -- right. exists evs, e, first, (rest ++ [e]).
           rewrite Hcons. repeat split; try reflexivity; try tauto.
           rewrite Hty. discriminate.
    + rewrite app_nil_r. split; [exact Halt|].
      destruct Hstate as [[Hnil Hsign]
        | (pre & e' & first & rest & Hsn & Hcons & Hf & Hr & Hs)].
      * left. split; [exact Hnil | tauto].
      * right. exists pre, e', first, rest.
        repeat split; try assumption; try tauto.
        intro E. specialize (Hr E).
        destruct (Qlt_le_dec (altitude nxt) 0) as [L|L]; [|exact L].
        apply Hsame in L. lra.
Qed.

(** X7.  Sunrises and sunsets take turns in the list of events, and
    the first event is a sunrise exactly when the first sample has the
    sun below the horizon. *)
Theorem events_alternate :
  forall (bearing : Q -> Q -> Q -> Q -> Q)
         (getTimes : Z -> Q -> Q -> SunTimes)
         (sunPoints : list SunPoint),
  exists evs,
    detectEvents bearing getTimes sunPoints = Some evs /\
    Alternating evs /\
    (forall p e,
        hd_error sunPoints = Some p -> hd_error evs = Some e ->
        (ev_type e = Sunrise <-> altitude p < 0)).
Proof.
  intros bearing getTimes l. eexists.
  split; [apply detectEvents_pairs|].
  destruct l as [|p0 r]; [split; [exact I | discriminate]|].
  destruct (alternation_prefix bearing getTimes (p0 :: r) p0
              (length (p0 :: r) - 1) eq_refl)
    as (cur & _ & Halt & Hstate); [cbn; lia|].
  split; [exact Halt|].
  intros p e Hp He. injection Hp as <-.
  destruct Hstate as [[Hnil _] | (_ & _ & first & rest & _ & Hc & Hf & _)].
  - rewrite Hnil in He. discriminate.
  - rewrite Hc in He. injection He as <-. exact Hf.
Qed.

Lemma pairEvents_time (bearing : Q -> Q -> Q -> Q -> Q)
    (getTimes : Z -> Q -> Q -> SunTimes) (l : list SunPoint) (i : nat)
    (p q : SunPoint) (e : SunEvent) :
  nth_error l i = Some p ->
  nth_error l (S i) = Some q ->
  (time p <= time q)%Z ->
  In e (pairEvents bearing getTimes l i) ->
  (time p <= ev_time e <= time q)%Z.
Proof.
  intros Hp Hq Ht Hin.
  rewrite (pairEvents_eq bearing getTimes l i p q Hp Hq) in Hin.
  exact (crossingEvents_time getTimes p q _ e Ht Hin).
Qed.

(** The events of the first [k] pairs are in order of time and none is
    later than sample [k]. *)
Lemma chronological_prefix (bearing : Q -> Q -> Q -> Q -> Q)
    (getTimes : Z -> Q -> Q -> SunTimes) (l : list SunPoint) (k : nat) :
  TimeOrdered l ->
  (k < length l)%nat ->
  exists cur,
    nth_error l k = Some cur /\
    Chronological (flat_map (pairEvents bearing getTimes l) (seq 0 k)) /\
    (forall e,
        In e (flat_map (pairEvents bearing getTimes l) (seq 0 k)) ->
        (ev_time e <= time cur)%Z).
Proof.
  intros Hord. induction k as [|k IH]; intro Hk.
  - destruct (nth_error l 0) as [p0|] eqn:H0;
      [|apply nth_error_None in H0; lia].
    exists p0. repeat split. intros e [].
  - destruct IH as (cur & Hcur & Hch & Hle); [lia|].
    destruct (nth_error l (S k)) as [nxt|] eqn:Hnxt;
      [|apply nth_error_None in Hnxt; lia].
    exists nxt. split; [reflexivity|].
    pose proof (Chain_nth _ l k cur nxt Hord Hcur Hnxt) as Ht.
    cbn beta in Ht.
    pose proof (fun e =>
      pairEvents_time bearing getTimes l k cur nxt e Hcur Hnxt Ht) as Hin.
    rewrite seq_S, flat_map_app. cbn [plus flat_map]. rewrite app_nil_r.
    set (evs := flat_map (pairEvents bearing getTimes l) (seq 0 k)) in *.
    destruct (pairEvents_step bearing getTimes l k cur nxt Hcur Hnxt)
      as [(_ & _ & e & E & _) | [(_ & _ & e & E & _) | (_ & E)]];
      rewrite E in Hin |- *.
    + split.
      * apply Chain_snoc; [exact Hch|].
        intros pre a Ea.
        assert (Ha : In a evs) by (rewrite Ea; apply in_elt).
        specialize (Hle a Ha). specialize (Hin e (or_introl eq_refl)). lia.
      * intros x Hx. apply in_app_or in Hx. destruct Hx as [Hx | [<- | []]].
        -- specialize (Hle x Hx). lia.
        -- specialize (Hin e (or_introl eq_refl)). lia.
    + split.
      * apply Chain_snoc; [exact Hch|].
        intros pre a Ea.
        assert (Ha : In a evs) by (rewrite Ea; apply in_elt).
        specialize (Hle a Ha). specialize (Hin e (or_introl eq_refl)). lia.
      * intros x Hx. apply in_app_or in Hx. destruct Hx as [Hx | [<- | []]].
        -- specialize (Hle x Hx). lia.
        -- specialize (Hin e (or_introl eq_refl)). lia.
    + rewrite app_nil_r. split; [exact Hch|].
      intros x Hx. specialize (Hle x Hx). lia.
Qed.

(** X8.  When the sample times never go back, the events come out in
    order of time. *)
Theorem events_in_time_order :
  forall (bearing : Q -> Q -> Q -> Q -> Q)
         (getTimes : Z -> Q -> Q -> SunTimes)
         (sunPoints : list SunPoint),
    TimeOrdered sunPoints ->
    exists evs,
      detectEvents bearing getTimes sunPoints = Some evs /\
      Chronological evs.
Proof.
  intros bearing getTimes l Hord. eexists.
  split; [apply detectEvents_pairs|].
  destruct l as [|p0 r]; [exact I|].
  destruct (chronological_prefix bearing getTimes (p0 :: r)
              (length (p0 :: r) - 1) Hord)
    as (cur & _ & Hch & _); [cbn; lia | exact Hch].
Qed.

Lemma events_in_time_order_witness :
  exists evs,
    detectEvents Examples.cardinalBearing Examples.noTimes
      MoreExamples.night = Some evs /\
    Chronological evs.
Proof.
  apply (events_in_time_order Examples.cardinalBearing Examples.noTimes
           MoreExamples.night).
  repeat split; discriminate.
Defined.

Lemma flat_map_nil {A B : Type} (f : A -> list B) (l : list A) :
  (forall a, In a l -> f a = []) -> flat_map f l = [].
Proof.
  induction l as [|a l IH]; intro H; [reflexivity|].
  cbn [flat_map]. rewrite (H a (or_introl eq_refl)). cbn [app].
  apply IH. intros b Hb. apply H. now right.
Qed.

(** X9.  When the sun stays on one side of the horizon at every
    sample (on or above it throughout, or below it throughout), the
    detector returns no event. *)
Theorem no_crossing_no_event :
  forall (bearing : Q -> Q -> Q -> Q -> Q)
         (getTimes : Z -> Q -> Q -> SunTimes)
         (sunPoints : list SunPoint),
    Forall (fun p => 0 <= altitude p) sunPoints \/
    Forall (fun p => altitude p < 0) sunPoints ->
    detectEvents bearing getTimes sunPoints = Some [].
Proof.
  intros bearing getTimes l Hside.
  rewrite detectEvents_pairs. f_equal. apply flat_map_nil.
  intros i Hi. apply in_seq in Hi.
  destruct (nth_error l i) as [p|] eqn:Hp;
    [|apply nth_error_None in Hp; lia].
  destruct (nth_error l (S i)) as [q|] eqn:Hq;
    [|apply nth_error_None in Hq; lia].
  pose proof (nth_error_In _ _ Hp) as Ip.
  pose proof (nth_error_In _ _ Hq) as Iq.
  destruct (pairEvents_step bearing getTimes l i p q Hp Hq)
    as [(Ha & Hb & _) | [(Ha & Hb & _) | (_ & E)]]; [| |exact E];
    exfalso; destruct Hside as [H | H]; rewrite Forall_forall in H;
    pose proof (H p Ip) as Hp'; pose proof (H q Iq) as Hq';
    cbn beta in Hp', Hq'; lra.
Qed.

Lemma no_crossing_no_event_witness :
  detectEvents Examples.cardinalBearing Examples.noTimes Examples.edges
  = Some [].
Proof.
  apply (no_crossing_no_event Examples.cardinalBearing Examples.noTimes
           Examples.edges).
  left. repeat constructor; discriminate.
Defined.

(** ** More on the segmentation *)

Lemma segmentPoints_Segmented (pts : list (Q * Q)) :
  Segmented pts (segmentPoints pts).
Proof.
  unfold segmentPoints.
  destruct (segment_loop pts) as [[-> ->] | (segs & cur & -> & Hne & Hg)].
  - cbn. repeat split; constructor.
  - destruct cur; [congruence | exact Hg].
Qed.

Lemma isJump_Jump (a b : Q * Q) : isJump (a, b) = true <-> Jump a b.
Proof.
  unfold isJump, Jump, JsNum.gtb, JsNum.abs. cbn [fst snd]. apply ltb_lt.
Qed.

Lemma Smooth_no_jump (s : list (Q * Q)) :
  Smooth s <-> filter isJump (adjacent s) = [].
Proof.
  induction s as [|a [|b r] IH]; [easy | easy |].
  change (adjacent (a :: b :: r)) with ((a, b) :: adjacent (b :: r)).
  change (Smooth (a :: b :: r)) with (~ Jump a b /\ Smooth (b :: r)).
  cbn [filter]. rewrite <- isJump_Jump, IH.
  destruct (isJump (a, b)); split.
  - intros [H _]. now contradiction H.
  - discriminate.
  - now intros [_ H].
  - intro H. split; [discriminate | exact H].
Qed.

Lemma adjacent_app {A : Type} (a : list A) (x y : A) (b : list A) :
  adjacent ((a ++ [x]) ++ y :: b)
  = adjacent (a ++ [x]) ++ (x, y) :: adjacent (y :: b).
Proof.
  induction a as [|c [|d r] IH]; [reflexivity | reflexivity |].
  change (adjacent (((c :: d :: r) ++ [x]) ++ y :: b))
    with ((c, d) :: adjacent (((d :: r) ++ [x]) ++ y :: b)).
  change (adjacent ((c :: d :: r) ++ [x]))
    with ((c, d) :: adjacent ((d :: r) ++ [x])).
  rewrite IH. reflexivity.
Qed.

(** The cuts are as many as the jumps. *)
Lemma Segmented_count (segs : list (list (Q * Q))) (pts : list (Q * Q)) :
  segs <> [] -> Segmented pts segs ->
  length segs = S (length (filter isJump (adjacent pts))).
Proof.
  revert pts. induction segs as [|s [|s' rest] IH]; intros pts Hne Hseg;
    [congruence | |].
  - destruct Hseg as (Hc & _ & Hs & _). cbn in Hc. rewrite app_nil_r in Hc.
    subst s. inversion Hs as [|? ? Hsm _]; subst.
    apply Smooth_no_jump in Hsm. now rewrite Hsm.
  - destruct Hseg as (Hc & Hn & Hs & Hb).
    destruct Hb as [(pre & a & b & post & -> & -> & Hj) Hb].
    inversion Hn as [|? ? _ Hn']; subst.
    inversion Hs as [|? ? Hsm Hs']; subst.
    assert (Hrest : Segmented (concat ((b :: post) :: rest))
                      ((b :: post) :: rest))
      by (repeat split; assumption).
    specialize (IH _ ltac:(discriminate) Hrest).
    change (concat ((pre ++ [a]) :: (b :: post) :: rest))
      with ((pre ++ [a]) ++ concat ((b :: post) :: rest)).
    change (concat ((b :: post) :: rest))
      with (b :: (post ++ concat rest)) in IH |- *.
    rewrite adjacent_app, filter_app.
    apply Smooth_no_jump in Hsm. rewrite Hsm. cbn [app filter].
    apply isJump_Jump in Hj. rewrite Hj.
    cbn [length] in IH |- *. now rewrite IH.
Qed.

(** X10.  An empty point list gives no segment; a non-empty one gives
    one segment more than it has neighbours whose longitudes differ by
    more than 180 degrees. *)
Theorem segment_count :
  forall (points : list (Q * Q)),
    points <> [] ->
    segmentPoints [] = [] /\
    length (segmentPoints points)
    = S (length (filter isJump (adjacent points))).
Proof.
  intros pts Hne. split; [reflexivity|].
  pose proof (segmentPoints_Segmented pts) as Hseg.
  apply Segmented_count; [|exact Hseg].
  intro E. destruct Hseg as (Hc & _). rewrite E in Hc. cbn in Hc.
  congruence.
Qed.

Lemma segment_count_witness :
  segmentPoints [] = [] /\
  length (segmentPoints Examples.pacific)
  = S (length (filter isJump (adjacent Examples.pacific))).
Proof.
  apply (segment_count Examples.pacific). discriminate.
Defined.

(** X11.  A non-empty point list comes back as a single, unchanged
    segment exactly when no two neighbours differ by more than 180
    degrees of longitude. *)
Theorem unsplit_iff_smooth :
  forall (points : list (Q * Q)),
    points <> [] ->
    (segmentPoints points = [points] <-> Smooth points).
Proof.
  intros pts Hne.
  pose proof (segmentPoints_Segmented pts) as Hseg. split.
  - intro E. rewrite E in Hseg. destruct Hseg as (_ & _ & Hs & _).
    now inversion Hs.
  - intro Hsm.
    assert (Hlen : length (segmentPoints pts) = 1%nat).
    { rewrite (Segmented_count _ pts); [|
        intro E; destruct Hseg as (Hc & _); rewrite E in Hc; cbn in Hc;
        congruence | exact Hseg].
      apply Smooth_no_jump in Hsm. now rewrite Hsm. }
    destruct Hseg as (Hc & _).
    destruct (segmentPoints pts) as [|s [|s' rest]]; try discriminate.
    cbn in Hc. rewrite app_nil_r in Hc. now subst.
Qed.

Lemma unsplit_iff_smooth_witness :
  segmentPoints [ (35, 170); (36, 178) ] = [ [ (35, 170); (36, 178) ] ]
  <-> Smooth [ (35, 170); (36, 178) ].
Proof.
  apply (unsplit_iff_smooth [ (35, 170); (36, 178) ]). discriminate.
Defined.

Lemma concat_length_nonempty {A : Type} (segs : list (list A)) :
  Forall (fun s => s <> []) segs -> (length segs <= length (concat segs))%nat.
Proof.
  induction 1 as [|s segs Hs _ IH]; [reflexivity|].
  cbn [concat length]. rewrite length_app.
  destruct s; [congruence | cbn [length]; lia].
Qed.

(** X12.  The drawn flight path always has 21 points, from the
    interpolation at fraction 0 to the interpolation at fraction 1,
    in at least 1 and at most 21 segments. *)
Theorem flight_path_size :
  forall (interpolateGreatCircle : Q -> Q -> Q -> Q -> Q -> Q * Q)
         (lat1 lon1 lat2 lon2 : Q),
    length (concat (createFlightPath interpolateGreatCircle
                      lat1 lon1 lat2 lon2)) = 21%nat /\
    (1 <= length (createFlightPath interpolateGreatCircle
                    lat1 lon1 lat2 lon2) <= 21)%nat /\
    exists f0 f1,
      f0 == 0 /\ f1 == 1 /\
      nth_error (concat (createFlightPath interpolateGreatCircle
                           lat1 lon1 lat2 lon2)) 0
      = Some (interpolateGreatCircle lat1 lon1 lat2 lon2 f0) /\
      nth_error (concat (createFlightPath interpolateGreatCircle
                           lat1 lon1 lat2 lon2)) 20
      = Some (interpolateGreatCircle lat1 lon1 lat2 lon2 f1).
Proof.
  intros interp lat1 lon1 lat2 lon2. unfold createFlightPath.
  pose proof (segmentPoints_Segmented
                (routePoints interp lat1 lon1 lat2 lon2)) as Hseg.
  pose proof Hseg as (Hc & Hn & _).
  assert (Hlen : length (routePoints interp lat1 lon1 lat2 lon2) = 21%nat)
    by (unfold routePoints; now rewrite length_map, length_seq).
  rewrite Hc. split; [exact Hlen|]. split.
  - pose proof (concat_length_nonempty _ Hn) as Hle.
    rewrite Hc, Hlen in Hle. split; [|exact Hle].
    assert (Hne : segmentPoints (routePoints interp lat1 lon1 lat2 lon2)
                  <> []).
    { intro E. rewrite E in Hc. rewrite <- Hc in Hlen. discriminate. }
    rewrite (Segmented_count _ _ Hne Hseg). lia.
  - exists (inject_Z (Z.of_nat 0) / inject_Z (Z.of_nat 20)),
           (inject_Z (Z.of_nat 20) / inject_Z (Z.of_nat 20)).
    repeat split; reflexivity.
Qed.

(** ** The sample shown for the map time *)

Lemma findIndexFrom_first {A : Type} (f : A -> bool) (pre : list A) (x : A)
    (post : list A) (i : Z) :
  Forall (fun y => f y = false) pre -> f x = true ->
  findIndexFrom f (pre ++ x :: post) i = (i + Z.of_nat (length pre))%Z.
Proof.
  intros Hpre Hx. revert i.
  induction Hpre as [|y pre Hy _ IH]; intro i; cbn [app findIndexFrom].
  - rewrite Hx. cbn. lia.
  - rewrite Hy, IH. cbn [length]. lia.
Qed.

Lemma findIndexFrom_none {A : Type} (f : A -> bool) (a : list A) (i : Z) :
  Forall (fun y => f y = false) a -> findIndexFrom f a i = (-1)%Z.
Proof.
  intros Ha. revert i.
  induction Ha as [|y a Hy _ IH]; intro i; cbn [findIndexFrom];
    [reflexivity|].
  now rewrite Hy.
Qed.

(** Either some element passes the test, and there is a first one, or
    none does. *)
Lemma first_match {A : Type} (f : A -> bool) (a : list A) :
  (exists pre x post,
      a = pre ++ x :: post /\
      Forall (fun y => f y = false) pre /\ f x = true)
  \/ Forall (fun y => f y = false) a.
Proof.
  induction a as [|y a IH]; [right; constructor|].
  destruct (f y) eqn:Hy.
  - left. exists [], y, a. repeat split; [constructor | exact Hy].
  - destruct IH as [(pre & x & post & -> & Hpre & Hx) | Hnone].
    + left. exists (y :: pre), x, post.
      repeat split; [constructor; assumption | exact Hx].
    + right. constructor; assumption.
Qed.

Lemma shown_at (l pre : list SunPoint) (x : SunPoint) (post : list SunPoint)
    (mapTime : Z) :
  l = pre ++ x :: post ->
  findIndex (nearMapTime mapTime) l = Z.of_nat (length pre) ->
  currentSunPoint l mapTime = Some (Some x).
Proof.
  intros -> Hidx. unfold currentSunPoint. rewrite Hidx.
  destruct (Nat.ltb_spec 0 (length (pre ++ x :: post))) as [_|L];
    [|rewrite length_app in L; cbn in L; lia].
  destruct (Z.eqb_spec (Z.of_nat (length pre)) (-1)); [lia|].
  now rewrite aref_nat, nth_error_middle.
Qed.

(** X13.  Without samples nothing is shown.  With samples, the sample
    shown for the map time is the first one less than five minutes
    away from it, and the first sample of the route when no sample is
    that close; the lookup never falls outside the array. *)
Theorem sample_for_map_time :
  forall (mapTime : Z) (p : SunPoint) (rest : list SunPoint),
    currentSunPoint [] mapTime = Some None /\
    exists c,
      currentSunPoint (p :: rest) mapTime = Some (Some c) /\
      ((exists pre post,
           p :: rest = pre ++ c :: post /\
           Forall (fun y => nearMapTime mapTime y = false) pre /\
           nearMapTime mapTime c = true)
       \/
       (Forall (fun y => nearMapTime mapTime y = false) (p :: rest) /\
        c = p)).
Proof.
  intros mapTime p rest. split; [reflexivity|].
  destruct (first_match (nearMapTime mapTime) (p :: rest))
    as [(pre & x & post & E & Hpre & Hx) | Hnone].
  - exists x. split.
    + apply (shown_at _ pre x post); [exact E|].
      unfold findIndex. rewrite E.
      now rewrite findIndexFrom_first.
    + left. exists pre, post. repeat split; assumption.
  - exists p. split.
    + unfold currentSunPoint, findIndex.
      rewrite (findIndexFrom_none _ _ _ Hnone). reflexivity.
    + right. split; [exact Hnone | reflexivity].
Qed.

Lemma gap_before (pre : list SunPoint) (p : SunPoint) (post : list SunPoint) :
  FiveMinutesApart (pre ++ p :: post) ->
  Forall (fun y => (time y + 300000 <= time p)%Z) pre.
Proof.
  induction pre as [|y [|z pre] IH]; intro H; [constructor | |].
  - destruct H as [H _]. constructor; [exact H | constructor].
  - destruct H as [Hyz H]. specialize (IH H).
    constructor; [|exact IH].
    inversion IH; subst. lia.
Qed.

(** X14.  When consecutive samples are at least five minutes apart and
    the map time is the time of one of them (as set by the slider),
    that very sample is shown. *)
Theorem slider_shows_its_sample :
  forall (pre : list SunPoint) (p : SunPoint) (post : list SunPoint),
    FiveMinutesApart (pre ++ p :: post) ->
    currentSunPoint (pre ++ p :: post) (time p) = Some (Some p).
Proof.
  intros pre p post Hgap.
  apply (shown_at _ pre p post (time p) eq_refl).
  unfold findIndex. rewrite findIndexFrom_first; [lia | |].
  - pose proof (gap_before pre p post Hgap) as Hb.
    rewrite Forall_forall in Hb |- *. intros y Hy. specialize (Hb y Hy).
    unfold nearMapTime. apply Z.ltb_ge. lia.
  - unfold nearMapTime. apply Z.ltb_lt. lia.
Qed.

Lemma slider_shows_its_sample_witness :
  currentSunPoint
    ([mkSunPoint 0 0 0 10 270; mkSunPoint 10 0 600000 4 270]
     ++ mkSunPoint 20 0 1200000 (-2) 270 :: [mkSunPoint 30 0 1800000 (-8) 270])
    1200000
  = Some (Some (mkSunPoint 20 0 1200000 (-2) 270)).
Proof.
  apply (slider_shows_its_sample
           [mkSunPoint 0 0 0 10 270; mkSunPoint 10 0 600000 4 270]
           (mkSunPoint 20 0 1200000 (-2) 270)
           [mkSunPoint 30 0 1800000 (-8) 270]).
  repeat split; discriminate.
Defined.

(** ** Favorite routes *)

Section FavoriteRoutes.

Import Favorites.

Lemma isCurrentFavorite_In (favs : list Favorite) (s d : string) :
  isCurrentFavorite favs s d = true <-> In (mkFavorite s d) favs.
Proof.
  unfold isCurrentFavorite. rewrite existsb_exists. split.
  - intros ([a b] & Hin & Hx). cbn in Hx.
    apply andb_true_iff in Hx. destruct Hx as [Ha Hb].
    apply String.eqb_eq in Ha, Hb. now subst.
  - intro Hin. exists (mkFavorite s d). split; [exact Hin|].
    cbn. now rewrite !String.eqb_refl.
Qed.

Lemma In_removeFavorite (favs : list Favorite) (s d : string) (f : Favorite) :
  In f (removeFavorite favs s d) <-> In f favs /\ f <> mkFavorite s d.
Proof.
  unfold removeFavorite. rewrite filter_In.
  destruct f as [a b]. cbn.
  destruct (String.eqb_spec a s), (String.eqb_spec b d); cbn;
    split; intros [Hin H]; split; try assumption; try reflexivity;
    try discriminate; try congruence.
Qed.

Lemma toggle_on (favs : list Favorite) (s d : string) :
  isCurrentFavorite favs s d = false ->
  toggleFavorite favs s d = favs ++ [mkFavorite s d].
Proof.
  intro H. unfold toggleFavorite. rewrite H. cbn [source dest].
  fold (isCurrentFavorite favs s d). now rewrite H.
Qed.

Lemma toggle_off (favs : list Favorite) (s d : string) :
  isCurrentFavorite favs s d = true ->
  toggleFavorite favs s d = removeFavorite favs s d.
Proof. intro H. unfold toggleFavorite. now rewrite H. Qed.

Lemma In_toggleFavorite (favs : list Favorite) (s d : string) (f : Favorite) :
  f <> mkFavorite s d ->
  (In f (toggleFavorite favs s d) <-> In f favs).
Proof.
  intro Hne. destruct (isCurrentFavorite favs s d) eqn:E.
  - rewrite (toggle_off _ _ _ E), In_removeFavorite. tauto.
  - rewrite (toggle_on _ _ _ E), in_app_iff. cbn [In].
    split; [intros [H | [H | []]]; [exact H | congruence] | tauto].
Qed.

(** X15.  Toggling the star flips whether the current route is a
    favorite and changes that of no other route. *)
Theorem toggle_flips_current_only :
  forall (favs : list Favorite) (s d s' d' : string),
    isCurrentFavorite (toggleFavorite favs s d) s' d'
    = xorb (isCurrentFavorite favs s' d')
        (String.eqb s' s && String.eqb d' d).
Proof.
  intros favs s d s' d'.
  destruct (String.eqb_spec s' s) as [-> | Hs];
    [destruct (String.eqb_spec d' d) as [-> | Hd] |]; cbn [andb].
  - destruct (isCurrentFavorite favs s d) eqn:E; cbn [xorb].
    + rewrite (toggle_off _ _ _ E).
      destruct (isCurrentFavorite (removeFavorite favs s d) s d) eqn:E2;
        [|reflexivity].
      apply isCurrentFavorite_In, In_removeFavorite in E2.
      now destruct E2.
    + rewrite (toggle_on _ _ _ E).
      apply isCurrentFavorite_In, in_app_iff. right. now left.
  - rewrite xorb_false_r. apply eq_true_iff_eq.
    rewrite !isCurrentFavorite_In. apply In_toggleFavorite. congruence.
  - rewrite xorb_false_r. apply eq_true_iff_eq.
    rewrite !isCurrentFavorite_In. apply In_toggleFavorite. congruence.
Qed.

(** X16.  Starring a route that is not a favorite and unstarring it
    again gives back the list of favorites as it was. *)
Theorem toggle_twice_restores :
  forall (favs : list Favorite) (s d : string),
    isCurrentFavorite favs s d = false ->
    toggleFavorite (toggleFavorite favs s d) s d = favs.
Proof.
  intros favs s d H.
  rewrite (toggle_on _ _ _ H).
  rewrite toggle_off
    by (apply isCurrentFavorite_In, in_app_iff; right; now left).
  unfold removeFavorite. rewrite filter_app. cbn [filter source dest].
  rewrite !String.eqb_refl. cbn [negb orb]. rewrite app_nil_r.
  apply forallb_filter_id. apply forallb_forall.
  intros [a b] Hin. cbn.
  destruct (String.eqb_spec a s) as [-> | _]; [|reflexivity].
  destruct (String.eqb_spec b d) as [-> | _]; [|reflexivity].
  apply isCurrentFavorite_In in Hin. congruence.
Qed.

Lemma toggle_twice_restores_witness :
  toggleFavorite (toggleFavorite MoreExamples.favorites "SFO" "NRT")
    "SFO" "NRT"
  = MoreExamples.favorites.
Proof.
  apply (toggle_twice_restores MoreExamples.favorites "SFO" "NRT").
  reflexivity.
Defined.

(** X17.  Toggling the star never introduces a duplicate: a list of
    favorites without repetition stays without repetition. *)
Theorem toggle_keeps_distinct :
  forall (favs : list Favorite) (s d : string),
    NoDup favs -> NoDup (toggleFavorite favs s d).
Proof.
  intros favs s d Hnd. destruct (isCurrentFavorite favs s d) eqn:E.
  - rewrite (toggle_off _ _ _ E). now apply NoDup_filter.
  - rewrite (toggle_on _ _ _ E). apply NoDup_app; [exact Hnd | |].
    + constructor; [intros [] | constructor].
    + intros a Ha [<- | []].
      apply isCurrentFavorite_In in Ha. congruence.
Qed.

Lemma toggle_keeps_distinct_witness :
  NoDup (toggleFavorite MoreExamples.favorites "JFK" "LAX").
Proof.
  apply (toggle_keeps_distinct MoreExamples.favorites "JFK" "LAX").
  repeat constructor; cbn; intuition discriminate.
Defined.

End FavoriteRoutes.

(** ** The subsolar point *)

Lemma mathFloor_div (a b : Z) :
  mathFloor (inject_Z a / inject_Z b) = inject_Z (a / b).
Proof. unfold mathFloor. now rewrite Zdiv_Qdiv. Qed.

Lemma mathFloor_comp (x y : Q) : x == y -> mathFloor x = mathFloor y.
Proof. intro H. unfold mathFloor. now rewrite (Qfloor_comp x y H). Qed.

(** The three floors of the day number, over the integers. *)
Lemma dayNumber_floors (y m : Z) :
  mathFloor (275 * (inject_Z m + 1) / 9) = inject_Z (275 * (m + 1) / 9) /\
  mathFloor ((inject_Z m + 1 + 9) / 12) = inject_Z ((m + 1 + 9) / 12) /\
  mathFloor ((inject_Z y - 4 * mathFloor (inject_Z y / 4) + 2) / 3)
  = inject_Z ((y mod 4 + 2) / 3).
Proof.
  repeat split.
  - rewrite <- mathFloor_div. apply mathFloor_comp.
    rewrite inject_Z_mult, inject_Z_plus. reflexivity.
  - rewrite <- mathFloor_div. apply mathFloor_comp.
    rewrite !inject_Z_plus. reflexivity.
  - change 4 with (inject_Z 4) at 2. rewrite mathFloor_div.
    rewrite <- (mathFloor_div (y mod 4 + 2) 3). apply mathFloor_comp.
    rewrite Z.mod_eq by lia.
    unfold Z.sub.
    rewrite !inject_Z_plus, inject_Z_opp, inject_Z_mult. reflexivity.
Qed.

(** X18.  For a month from January to December, the day number of
    [getSubsolarPoint] is the rank of the date in its year: the days of
    the months before it plus the day of the month, a year counting as
    a leap year exactly when it is a multiple of 4. *)
Theorem day_number_is_rank :
  forall (date : UTCDate),
    (0 <= getUTCMonth date <= 11)%Z ->
    dayNumber date
    == inject_Z
         (daysBeforeMonth (getUTCFullYear date mod 4 =? 0)%Z
            (getUTCMonth date)
          + getUTCDate date).
Proof.
  intros [y m d h mi]. cbn [getUTCMonth getUTCFullYear getUTCDate].
  intro Hm. unfold dayNumber.
  cbn [getUTCMonth getUTCFullYear getUTCDate].
  destruct (dayNumber_floors y m) as (E1 & E2 & E3).
  rewrite E1, E2, E3. clear E1 E2 E3.
  pose proof (Z.mod_pos_bound y 4 ltac:(lia)) as Hr.
  rewrite inject_Z_plus.
  set (dq := inject_Z d).
  assert (Hcases : (y mod 4 = 0 \/ y mod 4 = 1 \/ y mod 4 = 2
                    \/ y mod 4 = 3)%Z) by lia.
  assert (Hmonth : (m = 0 \/ m = 1 \/ m = 2 \/ m = 3 \/ m = 4 \/ m = 5
                    \/ m = 6 \/ m = 7 \/ m = 8 \/ m = 9 \/ m = 10
                    \/ m = 11)%Z) by lia.
  destruct Hcases as [-> | [-> | [-> | ->]]];
    repeat (destruct Hmonth as [-> | Hmonth]); try subst m;
    vm_compute (inject_Z (275 * _ / 9));
    vm_compute (inject_Z ((_ + 1 + 9) / 12));
    vm_compute (inject_Z ((_ + 2) / 3));
    vm_compute (inject_Z (daysBeforeMonth _ _));
    ring.
Qed.

Lemma day_number_is_rank_witness :
  dayNumber MoreExamples.march1 == inject_Z (60 + 1).
Proof.
  apply (day_number_is_rank MoreExamples.march1). split; discriminate.
Defined.

(** X19.  For a sine within [[-1, 1]] and a time of day from 00:00 to
    23:59, the subsolar point has a latitude within 23.44 degrees of
    the equator and a longitude in [(-180, 180]], which is 180 at
    midnight UTC only. *)
Theorem subsolar_point_in_range :
  forall (mathSin : Q -> Q) (date : UTCDate),
    (forall x, - (1) <= mathSin x /\ mathSin x <= 1) ->
    (0 <= getUTCHours date <= 23)%Z ->
    (0 <= getUTCMinutes date <= 59)%Z ->
    - (2344 # 100) <= fst (getSubsolarPoint mathSin date) /\
    fst (getSubsolarPoint mathSin date) <= 2344 # 100 /\
    - (180) < snd (getSubsolarPoint mathSin date) /\
    snd (getSubsolarPoint mathSin date) <= 180 /\
    (snd (getSubsolarPoint mathSin date) == 180
     <-> getUTCHours date = 0%Z /\ getUTCMinutes date = 0%Z).
Proof.
  intros mathSin [y m d h mi] Hsin.
  cbn [getUTCHours getUTCMinutes]. intros Hh Hmi.
  unfold getSubsolarPoint. cbn [fst snd getUTCHours getUTCMinutes].
  match goal with
  | |- context [mathSin ?x] => destruct (Hsin x) as [Hlo Hhi];
                               set (s := mathSin x) in *
  end.
  assert (Hh0 : 0 <= inject_Z h)
    by (change 0 with (inject_Z 0); rewrite <- Zle_Qle; lia).
  assert (Hh1 : inject_Z h <= 23)
    by (change 23 with (inject_Z 23); rewrite <- Zle_Qle; lia).
  assert (Hm0 : 0 <= inject_Z mi)
    by (change 0 with (inject_Z 0); rewrite <- Zle_Qle; lia).
  assert (Hm1 : inject_Z mi <= 59)
    by (change 59 with (inject_Z 59); rewrite <- Zle_Qle; lia).
  assert (Elon : (inject_Z h * 60 + inject_Z mi) / 4
                 == inject_Z h * 15 + inject_Z mi * (1 # 4)) by field.
  clearbody s. rewrite Elon.
  split; [lra|]. split; [lra|]. split; [lra|]. split; [lra|]. split.
  - intro E.
    assert (Eh : inject_Z h == inject_Z 0)
      by (change (inject_Z 0) with 0; lra).
    assert (Em : inject_Z mi == inject_Z 0)
      by (change (inject_Z 0) with 0; lra).
    unfold Qeq in Eh, Em. cbn in Eh, Em. lia.
  - intros [-> ->]. reflexivity.
Qed.

Lemma subsolar_point_in_range_witness :
  - (2344 # 100) <= fst (getSubsolarPoint MoreExamples.flatSin
                           MoreExamples.march1) /\
  fst (getSubsolarPoint MoreExamples.flatSin MoreExamples.march1)
  <= 2344 # 100 /\
  - (180) < snd (getSubsolarPoint MoreExamples.flatSin MoreExamples.march1) /\
  snd (getSubsolarPoint MoreExamples.flatSin MoreExamples.march1) <= 180 /\
  (snd (getSubsolarPoint MoreExamples.flatSin MoreExamples.march1) == 180
   <-> 12%Z = 0%Z /\ 30%Z = 0%Z).
Proof.
  apply (subsolar_point_in_range MoreExamples.flatSin MoreExamples.march1).
  - intro x. unfold MoreExamples.flatSin.
    destruct (x <? 0); split; discriminate.
  - split; discriminate.
  - split; discriminate.
Defined.

(** ** The terminator *)

Section TerminatorProperties.

Variable declinationAt : Z -> Q -> Q -> option Q.
Variable date : Z.





End TerminatorProperties.


(** With a declination east of Greenwich only, the polyline has the 90
    points of the longitudes 2, 4, ..., 180. *)
Example terminator_east_only :
  option_map (@length (Q * Q))
    (getTerminatorPolyline MoreExamples.eastOnly 0)
  = Some 90%nat.
Proof. reflexivity. Qed.

(** At the midpoint between two samples ten minutes apart no sample is
    less than five minutes away, and the first sample is shown. *)
Example midpoint_shows_departure :
  currentSunPoint Examples.dusk 900000
  = Some (Some (mkSunPoint 0 0 0 10 270)).
Proof. reflexivity. Qed.

(** The short night of [night]: a sunset, then a sunrise. *)
Example detect_night :
  option_map (map ev_type)
    (detectEvents Examples.cardinalBearing Examples.noTimes
       MoreExamples.night)
  = Some [Sunset; Sunrise].
Proof. reflexivity. Qed.
